(** * tune_manager.importer.filesystem: the track processor, embedded in Rocq

    A shallow embedding of [src/tune_manager/importer/filesystem.py]: the
    identity function [file_id], the event grouping of the batching
    dispatcher, and the [TrackProcessor] service with its registry, its
    processing list, its expected-removal list, its event queue and its
    worker pool.

    Conventions.
    - A Python [str] is a list of code points ([str]).  Names that the source
      writes as literals (dictionary keys, enum member names, attribute names)
      are Rocq [string]s.
    - A Python [dict] is an association list in insertion order with one
      binding per key ([dict]).
    - A method of [TrackProcessor] is a function from the service state to
      the new state and an outcome: a Python exception does not roll back
      what the method did before raising.
    - Collaborators that live outside the file (mediafile, keyfinder,
      beatport, convert, image, file, json) are the fields of the class
      [External]. *)

From Stdlib Require Import List String Ascii ZArith NArith Bool Lia Arith.
From Stdlib Require Import Permutation Sorted.
Import ListNotations.

Local Open Scope string_scope.
Local Open Scope list_scope.
Local Open Scope Z_scope.

(** ** Python strings *)

Definition str := list N.

(** The code points of an ASCII literal of the source. *)
Definition u (s : string) : str :=
  List.map N_of_ascii (list_ascii_of_string s).

Fixpoint str_eqb (a b : str) : bool :=
  match a, b with
  | [], [] => true
  | x :: a', y :: b' => N.eqb x y && str_eqb a' b'
  | _, _ => false
  end.

Definition dot : N := 46.
Definition slash : N := 47.
Definition zero_digit : N := 48.

(** [p.rfind(c)]: the highest index of [c] in [p], or -1. *)
Fixpoint rfind (c : N) (p : str) : Z :=
  match p with
  | [] => -1
  | x :: t =>
      let r := rfind c t in
      if 0 <=? r then r + 1 else if N.eqb x c then 0 else -1
  end.

(** [p[:i]] and [p[i:]] for an index [0 <= i]. *)
Definition slice_to (p : str) (i : Z) : str := firstn (Z.to_nat i) p.
Definition slice_from (p : str) (i : Z) : str := skipn (Z.to_nat i) p.

(** [p[:-n]] for a literal [n > 0]. *)
Definition drop_last (n : nat) (p : str) : str :=
  firstn (List.length p - n) p.

(** The [while] loop of [genericpath._splitext]: is there a character other
    than the extension separator between the last path separator and the
    last dot? *)
Fixpoint has_non_dot (l : str) : bool :=
  match l with
  | [] => false
  | x :: t => if negb (N.eqb x dot) then true else has_non_dot t
  end.

(** [os.path.splitext] of posixpath (no alternative separator). *)
Definition splitext (p : str) : str * str :=
  let sepIndex := rfind slash p in
  let dotIndex := rfind dot p in
  if sepIndex <? dotIndex then
    if has_non_dot (slice_to (slice_from p (sepIndex + 1))
                             (dotIndex - (sepIndex + 1)))
    then (slice_to p dotIndex, slice_from p dotIndex)
    else (p, [])
  else (p, []).

(** [os.path.basename]: what follows the last separator. *)
Definition basename (p : str) : str := slice_from p (rfind slash p + 1).

Fixpoint rstrip (c : N) (p : str) : str :=
  match p with
  | [] => []
  | x :: t =>
      match rstrip c t with
      | [] => if N.eqb x c then [] else [x]
      | t' => x :: t'
      end
  end.

Fixpoint lstrip (c : N) (p : str) : str :=
  match p with
  | [] => []
  | x :: t => if N.eqb x c then lstrip c t else p
  end.

(** [p.strip(c)] for a one-character argument. *)
Definition strip (c : N) (p : str) : str := lstrip c (rstrip c p).

(** [os.path.dirname] of posixpath. *)
Definition dirname (p : str) : str :=
  let head := slice_to p (rfind slash p + 1) in
  match rstrip slash head with
  | [] => head
  | h => h
  end.

(** [os.path.join(a, b)] of posixpath, for two components. *)
Definition path_join (a b : str) : str :=
  match b with
  | x :: _ =>
      if N.eqb x slash then b
      else match a with
           | [] => b
           | _ => if N.eqb (last a 0%N) slash then a ++ b
                  else a ++ slash :: b
           end
  | [] =>
      match a with
      | [] => []
      | _ => if N.eqb (last a 0%N) slash then a else a ++ [slash]
      end
  end.

Definition startswith (pre p : str) : bool :=
  str_eqb (firstn (List.length pre) p) pre.


(** ** Exceptions and outcomes *)

Inductive exn : Type :=
| ValueError | KeyError | TypeError | AssertionError | NameError
| AttributeError | UnicodeEncodeError | CancelledError.

Inductive res (A : Type) : Type :=
| Ok (a : A)
| Raise (e : exn).
Arguments Ok {A} a.
Arguments Raise {A} e.

(** ** [str.encode("utf-8")] and [hashlib.md5(...).hexdigest()] *)

Definition utf8_char (c : N) : option (list Z) :=
  let z := Z.of_N c in
  if z <? 128 then Some [z]
  else if z <? 2048 then
    Some [Z.lor 192 (Z.shiftr z 6); Z.lor 128 (Z.land z 63)]
  else if (55296 <=? z) && (z <=? 57343) then None
  else if z <? 65536 then
    Some [Z.lor 224 (Z.shiftr z 12);
          Z.lor 128 (Z.land (Z.shiftr z 6) 63);
          Z.lor 128 (Z.land z 63)]
  else if z <? 1114112 then
    Some [Z.lor 240 (Z.shiftr z 18);
          Z.lor 128 (Z.land (Z.shiftr z 12) 63);
          Z.lor 128 (Z.land (Z.shiftr z 6) 63);
          Z.lor 128 (Z.land z 63)]
  else None.

(** Lone surrogates make [encode] raise [UnicodeEncodeError]. *)
Fixpoint encode_utf8 (s : str) : res (list Z) :=
  match s with
  | [] => Ok []
  | c :: t =>
      match utf8_char c, encode_utf8 t with
      | Some bs, Ok r => Ok (bs ++ r)
      | None, _ => Raise UnicodeEncodeError
      | _, Raise e => Raise e
      end
  end.

Module MD5.

Definition mask : Z := 4294967295.
Definition w32 (x : Z) : Z := Z.land x mask.
Definition add32 (x y : Z) : Z := w32 (x + y).
Definition not32 (x : Z) : Z := Z.lxor x mask.
Definition rotl (x c : Z) : Z :=
  w32 (Z.lor (Z.shiftl x c) (Z.shiftr x (32 - c))).

Definition K : list Z :=
  [3614090360; 3905402710; 606105819; 3250441966; 4118548399; 1200080426;
   2821735955; 4249261313; 1770035416; 2336552879; 4294925233; 2304563134;
   1804603682; 4254626195; 2792965006; 1236535329; 4129170786; 3225465664;
   643717713; 3921069994; 3593408605; 38016083; 3634488961; 3889429448;
   568446438; 3275163606; 4107603335; 1163531501; 2850285829; 4243563512;
   1735328473; 2368359562; 4294588738; 2272392833; 1839030562; 4259657740;
   2763975236; 1272893353; 4139469664; 3200236656; 681279174; 3936430074;
   3572445317; 76029189; 3654602809; 3873151461; 530742520; 3299628645;
   4096336452; 1126891415; 2878612391; 4237533241; 1700485571; 2399980690;
   4293915773; 2240044497; 1873313359; 4264355552; 2734768916; 1309151649;
   4149444226; 3174756917; 718787259; 3951481745].

Definition S : list Z :=
  [7; 12; 17; 22; 7; 12; 17; 22; 7; 12; 17; 22; 7; 12; 17; 22;
   5; 9; 14; 20; 5; 9; 14; 20; 5; 9; 14; 20; 5; 9; 14; 20;
   4; 11; 16; 23; 4; 11; 16; 23; 4; 11; 16; 23; 4; 11; 16; 23;
   6; 10; 15; 21; 6; 10; 15; 21; 6; 10; 15; 21; 6; 10; 15; 21].

Record state : Type := mk { a0 : Z; b0 : Z; c0 : Z; d0 : Z }.

Definition init : state :=
  mk 1732584193 4023233417 2562383102 271733878.

(** Sixteen little-endian words of a 64-byte block. *)
Fixpoint words (n : nat) (block : list Z) : list Z :=
  match n with
  | O => []
  | Datatypes.S n' =>
      match block with
      | b1 :: b2 :: b3 :: b4 :: rest =>
          (b1 + Z.shiftl b2 8 + Z.shiftl b3 16 + Z.shiftl b4 24)
            :: words n' rest
      | _ => 0 :: words n' []
      end
  end.

Definition round (M : list Z) (i : nat) (st : state) : state :=
  let '(mk A B C D) := st in
  let zi := Z.of_nat i in
  let '(F, g) :=
    if zi <? 16 then (Z.lor (Z.land B C) (Z.land (not32 B) D), zi)
    else if zi <? 32 then
      (Z.lor (Z.land D B) (Z.land (not32 D) C), (5 * zi + 1) mod 16)
    else if zi <? 48 then (Z.lxor B (Z.lxor C D), (3 * zi + 5) mod 16)
    else (Z.lxor C (Z.lor B (not32 D)), (7 * zi) mod 16) in
  let F' := add32 (add32 (add32 F A) (nth i K 0)) (nth (Z.to_nat g) M 0) in
  mk D (add32 B (rotl F' (nth i S 0))) B C.

Definition block (st : state) (bytes : list Z) : state :=
  let M := words 16 bytes in
  let r := fold_left (fun acc i => round M i acc) (seq 0 64) st in
  mk (add32 (a0 st) (a0 r)) (add32 (b0 st) (b0 r))
     (add32 (c0 st) (c0 r)) (add32 (d0 st) (d0 r)).

Fixpoint blocks (fuel : nat) (msg : list Z) (st : state) : state :=
  match fuel with
  | O => st
  | Datatypes.S f =>
      match msg with
      | [] => st
      | _ => blocks f (skipn 64 msg) (block st (firstn 64 msg))
      end
  end.

Definition le_bytes (n : nat) (x : Z) : list Z :=
  List.map (fun k => Z.land (Z.shiftr x (8 * Z.of_nat k)) 255) (seq 0 n).

Definition pad (msg : list Z) : list Z :=
  let len := Z.of_nat (List.length msg) in
  let zeros := Z.to_nat ((55 - len) mod 64) in
  msg ++ 128 :: repeat 0 zeros ++ le_bytes 8 (8 * len).

Definition digest (msg : list Z) : list Z :=
  let p := pad msg in
  let st := blocks (List.length p) p init in
  le_bytes 4 (a0 st) ++ le_bytes 4 (b0 st)
    ++ le_bytes 4 (c0 st) ++ le_bytes 4 (d0 st).

Definition hex_digit (z : Z) : N :=
  if z <? 10 then Z.to_N (48 + z) else Z.to_N (87 + z).

Definition hexdigest (msg : list Z) : str :=
  flat_map (fun b => [hex_digit (Z.shiftr b 4); hex_digit (Z.land b 15)])
           (digest msg).

End MD5.

(** ** The identity function *)

Definition VALID_FORMATS : list str := [u ".mp3"; u ".aif"; u ".aiff"].

(** [file_id(path)]: the md5 sum of the path without its extension. *)
Definition file_id (path : str) : res str :=
  match encode_utf8 (fst (splitext path)) with
  | Ok bytes => Ok (MD5.hexdigest bytes)
  | Raise e => Raise e
  end.

(** ** Values, dictionaries, events *)

(** An embedded artwork of a media file; [key] is its content hash. *)
Module Image.
Record t : Type := mk { key : str; payload : str }.
End Image.

Inductive value : Type :=
| VNone
| VBool (b : bool)
| VInt (z : Z)
| VStr (s : str)
| VList (l : list value)
| VImages (l : list Image.t).

(** Python truthiness, as used by [if v] and [and v]. *)
Definition truthy (v : value) : bool :=
  match v with
  | VNone => false
  | VBool b => b
  | VInt z => negb (z =? 0)
  | VStr s => match s with [] => false | _ => true end
  | VList l => match l with [] => false | _ => true end
  | VImages l => match l with [] => false | _ => true end
  end.

Section Assoc.
Context {K V : Type} (eqb : K -> K -> bool).

(** [d.get(k)] *)
Fixpoint assoc_get (k : K) (d : list (K * V)) : option V :=
  match d with
  | [] => None
  | (k', v) :: t => if eqb k' k then Some v else assoc_get k t
  end.

(** [k in d] *)
Definition assoc_mem (k : K) (d : list (K * V)) : bool :=
  match assoc_get k d with Some _ => true | None => false end.

(** [d[k] = v]: an existing key keeps its position. *)
Fixpoint assoc_set (k : K) (v : V) (d : list (K * V)) : list (K * V) :=
  match d with
  | [] => [(k, v)]
  | (k', v') :: t =>
      if eqb k' k then (k', v) :: t else (k', v') :: assoc_set k v t
  end.

(** [d.pop(k, None)] and [del d[k]] for a present key. *)
Fixpoint assoc_del (k : K) (d : list (K * V)) : list (K * V) :=
  match d with
  | [] => []
  | (k', v') :: t =>
      if eqb k' k then assoc_del k t else (k', v') :: assoc_del k t
  end.

(** [d.update(other)] *)
Definition assoc_update (d other : list (K * V)) : list (K * V) :=
  fold_left (fun acc kv => assoc_set (fst kv) (snd kv) acc) other d.

(** [x in l] for a list. *)
Definition mem (x : K) (l : list K) : bool := existsb (eqb x) l.

(** [l.remove(x)]: drops the first occurrence, [ValueError] if none. *)
Fixpoint list_remove (x : K) (l : list K) : res (list K) :=
  match l with
  | [] => Raise ValueError
  | y :: t =>
      if eqb y x then Ok t
      else match list_remove x t with
           | Ok t' => Ok (y :: t')
           | Raise e => Raise e
           end
  end.
End Assoc.

(** Dictionaries with literal keys ([**kwargs], items, tags). *)
Definition dict := list (string * value).
Definition dict_get : string -> dict -> option value := assoc_get String.eqb.
Definition dict_mem : string -> dict -> bool := assoc_mem String.eqb.
Definition dict_set : string -> value -> dict -> dict := assoc_set String.eqb.
Definition dict_update : dict -> dict -> dict := assoc_update String.eqb.

Inductive EventType : Type :=
| TRACK_DETAILS | TRACK_REMOVED | TRACK_PROCESSING | TRACK_UPDATE | TRACK_SAVED.

Definition EventType_name (t : EventType) : string :=
  match t with
  | TRACK_DETAILS => "TRACK_DETAILS"
  | TRACK_REMOVED => "TRACK_REMOVED"
  | TRACK_PROCESSING => "TRACK_PROCESSING"
  | TRACK_UPDATE => "TRACK_UPDATE"
  | TRACK_SAVED => "TRACK_SAVED"
  end.

Inductive TrackProcesses : Type :=
| CONVERTING | KEY_COMPUTING | BEATPORT_IMPORT.

Definition TrackProcesses_name (p : TrackProcesses) : string :=
  match p with
  | CONVERTING => "CONVERTING"
  | KEY_COMPUTING => "KEY_COMPUTING"
  | BEATPORT_IMPORT => "BEATPORT_IMPORT"
  end.

Definition TrackProcesses_eqb (p q : TrackProcesses) : bool :=
  match p, q with
  | CONVERTING, CONVERTING => true
  | KEY_COMPUTING, KEY_COMPUTING => true
  | BEATPORT_IMPORT, BEATPORT_IMPORT => true
  | _, _ => false
  end.

(** A queued event [{"type": ..., "item": ...}]. *)
Record event : Type := mk_event { ev_type : string; ev_item : dict }.

(** A dispatched group [{"type": ..., "items": [...]}]. *)
Record group : Type := mk_group { g_type : string; g_items : list dict }.

(** [events.sort(key=key_on_type)]: a stable sort on the type name. *)
Fixpoint insert_by_type (e : event) (l : list event) : list event :=
  match l with
  | [] => [e]
  | h :: t =>
      if String.leb (ev_type e) (ev_type h) then e :: h :: t
      else h :: insert_by_type e t
  end.

Fixpoint sort_by_type (l : list event) : list event :=
  match l with
  | [] => []
  | e :: t => insert_by_type e (sort_by_type t)
  end.

(** [itertools.groupby(events, key=key_on_type)]: maximal runs of
    consecutive events with the same type. *)
Fixpoint groupby (l : list event) : list (string * list event) :=
  match l with
  | [] => []
  | e :: t =>
      match groupby t with
      | (k, es) :: gs =>
          if String.eqb (ev_type e) k then (k, e :: es) :: gs
          else (ev_type e, [e]) :: (k, es) :: gs
      | [] => [(ev_type e, [e])]
      end
  end.

Definition group_events (events : list event) : list group :=
  List.map (fun g => mk_group (fst g) (List.map ev_item (snd g)))
           (groupby (sort_by_type events)).

(** ** Media files and the collaborators *)

(** A [mediafile.MediaFile] object, as far as this file touches it: the
    attributes it reads and writes by name ([file_path], [artwork], [key])
    and the remaining tag fields, reached through [hasattr]/[setattr]. *)
Module MediaFile.
Record t : Type := mk {
  file_path : str;
  artwork : list Image.t;
  key : value;
  tags : dict
}.

Definition hasattr (m : t) (k : string) : bool :=
  String.eqb k "file_path" || String.eqb k "artwork" || String.eqb k "key"
  || dict_mem k (tags m).


(** [setattr(m, k, v)].  The path is a string and the artwork a list of
    images; another value for one of them is a [TypeError]. *)
Definition setattr (m : t) (k : string) (v : value) : res t :=
  if String.eqb k "file_path" then
    match v with
    | VStr s => Ok (mk s (artwork m) (key m) (tags m))
    | _ => Raise TypeError
    end
  else if String.eqb k "artwork" then
    match v with
    | VImages l => Ok (mk (file_path m) l (key m) (tags m))
    | _ => Raise TypeError
    end
  else if String.eqb k "key" then Ok (mk (file_path m) (artwork m) v (tags m))
  else Ok (mk (file_path m) (artwork m) (key m) (dict_set k v (tags m))).

Definition set_key (m : t) (v : value) : t :=
  mk (file_path m) (artwork m) v (tags m).

Definition set_file_path (m : t) (p : str) : t :=
  mk p (artwork m) (key m) (tags m).

Definition empty : t := mk [] [] VNone [].
End MediaFile.

(** What the file imports and does not define.  Each field is the call the
    source makes, on its returning path. *)
Class External : Type := {
  (** [json.dumps(event)] *)
  json_dumps : group -> str;
  (** [mediafile.MediaFile(path)] *)
  MediaFile_open : str -> MediaFile.t;
  (** [mediafile.serialize(media, trim_path=...)] *)
  serialize : MediaFile.t -> str -> dict;
  (** [media.clear()] *)
  media_clear : MediaFile.t -> MediaFile.t;
  (** [media.reload()] *)
  media_reload : MediaFile.t -> MediaFile.t;
  (** [image.normalize_artwork(artwork)] *)
  normalize_artwork : Image.t -> list Image.t;
  (** [file.determine_path(media)] *)
  determine_path : MediaFile.t -> str;
  (** [file.collect_files([path], recursive=True, types=types)] *)
  collect_files : str -> list str -> list str;
  (** [keyfinder.key(path).camelot()] *)
  keyfinder_camelot : str -> str;
  (** [keyfinder.notations.camelot.values()] *)
  camelot_values : list str;
  (** [beatport.has_metadata(media)] *)
  has_metadata : MediaFile.t -> bool;
  (** [beatport.process(media)]: the media as it leaves it, and the fields *)
  beatport_process : MediaFile.t -> MediaFile.t * dict;
  (** [convert.CONVERTABLE_FORMATS] *)
  CONVERTABLE_FORMATS : list str;
  (** [os.stat(path).st_size] at the n-th look at the file *)
  stat_size : str -> nat -> N
}.

(** ** The service state *)

(** The options of a save: [options.get("migrate_path")] and
    [options.get("link_paths", [])]. *)
Record Options : Type := mk_options {
  migrate_path : option str;
  link_paths : list str
}.

(** A call submitted to the executor: the function and its arguments.  A
    media argument is the reference of the object, shared with the
    registry. *)
Inductive task : Type :=
| T_process_add (path : str) (safe_add : bool)
| T_convert_track (identifier : str) (path : str)
| T_compute_key (identifier : str) (media : nat)
| T_beatport_update (identifier : str) (media : nat)
| T_save_track (track : dict) (options : Options).

(** Calls that leave the process: the file system, the converter and the
    tag writer. *)
Inductive os_call : Type :=
| Rename (src dst : str)
| Makedirs (path : str)
| Move (src dst : str)
| Symlink (target link : str)
| Convert (path : str)
| MediaSave (media : MediaFile.t).

Record TrackProcessor : Type := mk_tp {
  import_path : str;
  (** [self.events], an [asyncio.Queue], oldest first *)
  events : list event;
  (** [self.connections], a set of sockets *)
  connections : list nat;
  (** [self.mediafiles]: identifier to media object *)
  mediafiles : list (str * nat);
  (** the media objects, by reference; [next_ref] is the next fresh one *)
  heap : nat -> MediaFile.t;
  next_ref : nat;
  (** [self.artwork]: content hash to artwork *)
  artwork : list (str * Image.t);
  (** [self.processing] *)
  processing : list (str * TrackProcesses);
  (** [self.expect_removed] *)
  expect_removed : list str;
  (** [self.executor]: submitted calls, oldest first *)
  executor : list task;
  (** the [ws.send(data)] tasks created by the dispatcher *)
  sent : list (nat * str);
  (** the calls made outside the process *)
  os_trace : list os_call;
  (** the exceptions raised by done-callbacks of the executor *)
  callback_faults : list exn
}.

Definition M (A : Type) : Type := TrackProcessor -> TrackProcessor * res A.

Definition ret {A} (a : A) : M A := fun s => (s, Ok a).
Definition raise {A} (e : exn) : M A := fun s => (s, Raise e).
Definition bind {A B} (c : M A) (k : A -> M B) : M B :=
  fun s => match c s with
           | (s', Ok a) => k a s'
           | (s', Raise e) => (s', Raise e)
           end.
Definition lift {A} (r : res A) : M A := fun s => (s, r).
Definition modify (f : TrackProcessor -> TrackProcessor) : M unit :=
  fun s => (f s, Ok tt).
Definition gets {A} (f : TrackProcessor -> A) : M A := fun s => (s, Ok (f s)).

Declare Scope tp_scope.
Delimit Scope tp_scope with tp.
Notation "x <- c ;; k" := (bind c (fun x => k))
  (at level 61, c at next level, right associativity) : tp_scope.
Notation "c ;; k" := (bind c (fun _ => k))
  (at level 61, right associativity) : tp_scope.
Local Open Scope tp_scope.

(** [for x in l: body(x)] *)
Fixpoint for_each {A} (l : list A) (body : A -> M unit) : M unit :=
  match l with
  | [] => ret tt
  | x :: t => body x ;; for_each t body
  end.

Definition with_events (s : TrackProcessor) (v : list event) : TrackProcessor :=
  mk_tp (import_path s) v (connections s) (mediafiles s) (heap s) (next_ref s) (artwork s)
        (processing s) (expect_removed s) (executor s) (sent s) (os_trace s)
        (callback_faults s).
Definition with_connections (s : TrackProcessor) (v : list nat) : TrackProcessor :=
  mk_tp (import_path s) (events s) v (mediafiles s) (heap s) (next_ref s) (artwork s)
        (processing s) (expect_removed s) (executor s) (sent s) (os_trace s)
        (callback_faults s).
Definition with_mediafiles (s : TrackProcessor) (v : list (str * nat))
  : TrackProcessor :=
  mk_tp (import_path s) (events s) (connections s) v (heap s) (next_ref s)
        (artwork s)
        (processing s) (expect_removed s) (executor s) (sent s) (os_trace s)
        (callback_faults s).
Definition with_heap (s : TrackProcessor) (v : nat -> MediaFile.t)
  (n : nat) : TrackProcessor :=
  mk_tp (import_path s) (events s) (connections s) (mediafiles s) v n
        (artwork s)
        (processing s) (expect_removed s) (executor s) (sent s) (os_trace s)
        (callback_faults s).
Definition with_artwork (s : TrackProcessor) (v : list (str * Image.t))
  : TrackProcessor :=
  mk_tp (import_path s) (events s) (connections s) (mediafiles s) (heap s)
        (next_ref s) v (processing s) (expect_removed s) (executor s) (sent s) (os_trace s)
        (callback_faults s).
Definition with_processing (s : TrackProcessor)
  (v : list (str * TrackProcesses)) : TrackProcessor :=
  mk_tp (import_path s) (events s) (connections s) (mediafiles s) (heap s)
        (next_ref s) (artwork s) v (expect_removed s) (executor s) (sent s) (os_trace s)
        (callback_faults s).
Definition with_expect_removed (s : TrackProcessor) (v : list str)
  : TrackProcessor :=
  mk_tp (import_path s) (events s) (connections s) (mediafiles s) (heap s)
        (next_ref s) (artwork s) (processing s) v (executor s) (sent s) (os_trace s)
        (callback_faults s).
Definition with_executor (s : TrackProcessor) (v : list task) : TrackProcessor :=
  mk_tp (import_path s) (events s) (connections s) (mediafiles s) (heap s)
        (next_ref s) (artwork s) (processing s) (expect_removed s) v (sent s) (os_trace s)
        (callback_faults s).
Definition with_sent (s : TrackProcessor) (v : list (nat * str))
  : TrackProcessor :=
  mk_tp (import_path s) (events s) (connections s) (mediafiles s) (heap s)
        (next_ref s) (artwork s) (processing s) (expect_removed s) (executor s) v
        (os_trace s) (callback_faults s).
Definition with_os_trace (s : TrackProcessor) (v : list os_call)
  : TrackProcessor :=
  mk_tp (import_path s) (events s) (connections s) (mediafiles s) (heap s)
        (next_ref s) (artwork s) (processing s) (expect_removed s) (executor s) (sent s) v
        (callback_faults s).

(** [TrackProcessor(import_path)]: the state [__init__] leaves. *)
Definition init (path : str) : TrackProcessor :=
  mk_tp path [] [] [] (fun _ => MediaFile.empty) O [] [] [] [] [] [] [].

(** The media object behind a reference. *)
Definition deref (r : nat) : M MediaFile.t :=
  gets (fun s => heap s r).

Definition heap_set (r : nat) (m : MediaFile.t) (h : nat -> MediaFile.t)
  : nat -> MediaFile.t :=
  fun r' => if Nat.eqb r' r then m else h r'.

Definition store (r : nat) (m : MediaFile.t) : M unit :=
  modify (fun s => with_heap s (heap_set r m (heap s)) (next_ref s)).

Definition alloc (m : MediaFile.t) : M nat :=
  fun s => (with_heap s (heap_set (next_ref s) m (heap s)) (S (next_ref s)),
            Ok (next_ref s)).

Definition os_do (c : os_call) : M unit :=
  modify (fun s => with_os_trace s (os_trace s ++ [c])).

Definition str_mem : str -> list str -> bool := mem str_eqb.

Definition entry_eqb (a b : str * TrackProcesses) : bool :=
  str_eqb (fst a) (fst b) && TrackProcesses_eqb (snd a) (snd b).

(** [d[k]] on a dictionary with literal keys. *)
Definition subscript (k : string) (d : dict) : res value :=
  match dict_get k d with
  | Some v => Ok v
  | None => Raise KeyError
  end.

(** A value used as a key of a dictionary whose keys are strings: a list
    is unhashable, every other value that is not a string is no key. *)
Definition as_key (v : value) : res (option str) :=
  match v with
  | VStr s => Ok (Some s)
  | VList _ | VImages _ => Raise TypeError
  | _ => Ok None
  end.

(** Reading a name in a scope that binds [scope]. *)
Definition name_lookup (n : string) (scope : list (string * str)) : res str :=
  match assoc_get String.eqb n scope with
  | Some v => Ok v
  | None => Raise NameError
  end.

(** Passing [**kwargs] to a function whose parameters are [params]: a
    keyword that names a parameter already given is a [TypeError]. *)
Definition bindable (params : list string) (kwargs : dict) : bool :=
  forallb (fun kv => negb (mem String.eqb (fst kv) params)) kwargs.

Definition bind_kwargs (params : list string) (kwargs : dict) : M unit :=
  if bindable params kwargs then ret tt else raise TypeError.

(** ** The completion callback *)




(** ** The methods of [TrackProcessor] *)

Section Service.
Context `{External}.

Definition send_event (event_type : EventType) (identifier : str)
  (kwargs : dict) : M unit :=
  bind_kwargs ["self"; "event_type"; "identifier"] kwargs ;;
  let item := dict_update [("id", VStr identifier)] kwargs in
  modify (fun s =>
    with_events s (events s ++ [mk_event (EventType_name event_type) item])).

Definition send_details (identifier : str) (track : dict) : M unit :=
  send_event TRACK_DETAILS identifier track.

Definition send_processing (identifier : str) (process : TrackProcesses)
  : M unit :=
  let item := [("process", VStr (u (TrackProcesses_name process)))] in
  send_event TRACK_PROCESSING identifier item.

Definition add_processing (identifier : str) (process : TrackProcesses)
  : M unit :=
  modify (fun s =>
    with_processing s (processing s ++ [(identifier, process)])) ;;
  send_processing identifier process.

Definition done_processing (identifier : str)
  (completed_process : TrackProcesses) (kwargs : dict) : M unit :=
  bind_kwargs ["self"; "identifier"; "completed_process"] kwargs ;;
  l <- gets processing ;;
  l' <- lift (list_remove entry_eqb (identifier, completed_process) l) ;;
  modify (fun s => with_processing s l') ;;
  let item :=
    dict_update
      [("completed_process", VStr (u (TrackProcesses_name completed_process)))]
      kwargs in
  send_event TRACK_UPDATE identifier item.

(** The socket [ws] is not used by the body. *)
Definition report_state (ws : nat) : M unit :=
  tracks <- gets mediafiles ;;
  for_each tracks (fun entry =>
    media <- deref (snd entry) ;;
    root <- gets import_path ;;
    let track := serialize media root in
    send_details (fst entry) track) ;;
  entries <- gets processing ;;
  for_each entries (fun entry => send_processing (fst entry) (snd entry)).

(** [self.executor.submit(fn, *args).add_done_callback(future_raise)] *)
Definition execute_paralell (t : task) : M unit :=
  modify (fun s => with_executor s (executor s ++ [t])).




(** [self.artwork.update({a.key: a for a in artwork})] *)
Definition cache_art (arts : list Image.t) : M unit :=
  modify (fun s =>
    with_artwork s
      (assoc_update str_eqb (artwork s)
         (assoc_update str_eqb []
            (List.map (fun a => (Image.key a, a)) arts)))).

(** The pairs kept by
    [[(k, v) for k, v in track.items() if hasattr(media, k) and v]]. *)
Definition eligible (media : MediaFile.t) (track : dict) : dict :=
  filter (fun kv => MediaFile.hasattr media (fst kv) && truthy (snd kv))
         track.

Definition save_track (track : dict) (options : Options) : M unit :=
  idv <- lift (subscript "id" track) ;;
  idk <- lift (as_key idv) ;;
  tracks <- gets mediafiles ;;
  match
    match idk with
    | Some i => option_map (pair i) (assoc_get str_eqb i tracks)
    | None => None
    end
  with
  | None => raise AssertionError
  | Some (identifier, media) =>
      av <- lift (subscript "artwork" track) ;;
      ak <- lift (as_key av) ;;
      cache <- gets artwork ;;
      let cached :=
        match ak with
        | Some k => assoc_get str_eqb k cache
        | None => None
        end in
      let track :=
        match cached with
        | Some a => dict_set "artwork" (VImages (normalize_artwork a)) track
        | None => dict_set "artwork" VNone track
        end in
      m <- deref media ;;
      let track := eligible m track in
      store media (media_clear m) ;;
      for_each track (fun kv =>
        m <- deref media ;;
        m' <- lift (MediaFile.setattr m (fst kv) (snd kv)) ;;
        store media m') ;;
      m <- deref media ;;
      cache_art (MediaFile.artwork m) ;;
      os_do (MediaSave m) ;;
      let standard_path := determine_path m in
      scope <-
        match migrate_path options with
        | Some root =>
            if truthy (VStr root) then
              modify (fun s =>
                with_expect_removed s (expect_removed s ++ [identifier])) ;;
              let path := path_join root standard_path in
              os_do (Makedirs (dirname path)) ;;
              m <- deref media ;;
              os_do (Move (MediaFile.file_path m) path) ;;
              store media (media_reload (MediaFile.set_file_path m path)) ;;
              ret [("standard_path", standard_path); ("migrate_path", root);
                   ("path", path)]
            else ret [("standard_path", standard_path); ("migrate_path", root)]
        | None => ret [("standard_path", standard_path)]
        end ;;
      for_each (link_paths options) (fun link_path =>
        let path := path_join link_path standard_path in
        os_do (Makedirs (dirname path)) ;;
        m <- deref media ;;
        new_path <-
          lift (name_lookup "new_path"
                  (("link_path", link_path) :: ("path", path) :: scope)) ;;
        os_do (Symlink (MediaFile.file_path m) new_path)) ;;
      send_event TRACK_SAVED identifier []
  end.

Definition save_all (tracks : list dict) (options : Options) : M unit :=
  for_each tracks (fun track => execute_paralell (T_save_track track options)).

Definition add (path : str) (safe_add : bool) : M unit :=
  if startswith (u "._") (basename path) then ret tt
  else execute_paralell (T_process_add path safe_add).

Definition add_safe (path : str) : M unit := add path true.

Definition add_all : M unit :=
  path <- gets import_path ;;
  let types := VALID_FORMATS ++ CONVERTABLE_FORMATS in
  for_each (collect_files path types) (fun path => add path false).

(** The polling loop of [process_add]: [true] when two looks in a row
    agree within [fuel] looks. *)
Fixpoint wait_stable (fuel : nat) (path : str) (n : nat) (size : N) : bool :=
  match fuel with
  | O => false
  | S fuel' =>
      let latest_size := stat_size path n in
      if N.eqb latest_size size then true
      else wait_stable fuel' path (S n) latest_size
  end.

(** [not media.key or not media.key.strip("0") in valid_keys] *)
Definition key_missing_or_invalid (k : value) : res bool :=
  if negb (truthy k) then Ok true
  else match k with
       | VStr s => Ok (negb (str_mem (strip zero_digit s) camelot_values))
       | _ => Raise AttributeError
       end.

(** [process_add] from the extension rewrite on. *)
Definition process_add_body (identifier ext path : str) : M unit :=
  renamed <-
    (if str_eqb ext (u ".aiff") then
       let ext := u ".aif" in
       let new_path := drop_last 5 path ++ ext in
       os_do (Rename path new_path) ;;
       identifier <- lift (file_id new_path) ;;
       ret (identifier, ext, new_path)
     else ret (identifier, ext, path)) ;;
  let '(identifier, ext, path) := renamed in
  if str_mem ext CONVERTABLE_FORMATS then
    execute_paralell (T_convert_track identifier path)
  else if negb (str_mem ext VALID_FORMATS) then ret tt
  else
    media <- alloc (MediaFile_open path) ;;
    m <- deref media ;;
    recompute <- lift (key_missing_or_invalid (MediaFile.key m)) ;;
    (if recompute then
       store media (MediaFile.set_key m (VStr [])) ;;
       execute_paralell (T_compute_key identifier media)
     else ret tt) ;;
    m <- deref media ;;
    (if has_metadata m then
       execute_paralell (T_beatport_update identifier media)
     else ret tt) ;;
    modify (fun s =>
      with_mediafiles s (assoc_set str_eqb identifier media (mediafiles s))) ;;
    cache_art (MediaFile.artwork m) ;;
    root <- gets import_path ;;
    let track := serialize m root in
    send_details identifier track.

(** [None]: the file never stopped growing within [fuel] looks. *)
Definition process_add (fuel : nat) (path : str) (safe_add : bool)
  (s : TrackProcessor) : option (TrackProcessor * res unit) :=
  match file_id path with
  | Raise e => Some (s, Raise e)
  | Ok identifier =>
      let ext := snd (splitext path) in
      if safe_add && negb (wait_stable fuel path 1 (stat_size path 0))
      then None
      else Some (process_add_body identifier ext path s)
  end.

Definition remove (path : str) : M unit :=
  identifier <- lift (file_id path) ;;
  tracks <- gets mediafiles ;;
  match assoc_get str_eqb identifier tracks with
  | None => ret tt
  | Some media =>
      m <- deref media ;;
      for_each (List.map Image.key (MediaFile.artwork m)) (fun k =>
        modify (fun s => with_artwork s (assoc_del str_eqb k (artwork s)))) ;;
      modify (fun s =>
        with_mediafiles s (assoc_del str_eqb identifier (mediafiles s))) ;;
      expected <- gets expect_removed ;;
      if negb (str_mem identifier expected) then
        send_event TRACK_REMOVED identifier []
      else
        l <- lift (list_remove str_eqb identifier expected) ;;
        modify (fun s => with_expect_removed s l)
  end.

(** One turn of the [while True] loop of [dispatcher], after the sleep. *)
Definition dispatcher_iteration : M unit :=
  queued <- gets events ;;
  match queued with
  | [] => ret tt
  | _ =>
      let batch := queued in
      modify (fun s => with_events s []) ;;
      conns <- gets connections ;;
      match conns with
      | [] => ret tt
      | _ =>
          for_each (group_events batch) (fun event =>
            let data := json_dumps event in
            for_each conns (fun ws =>
              modify (fun s => with_sent s (sent s ++ [(ws, data)]))))
      end
  end.

(** [open_connection] up to its first [await]. *)
Definition open_connection (ws : nat) : M unit :=
  modify (fun s =>
    if existsb (Nat.eqb ws) (connections s) then s
    else with_connections s (connections s ++ [ws])) ;;
  report_state ws.

(** The handler of [open_connection]: [self.connections.remove(ws)]. *)
Definition close_connection (ws : nat) : M unit :=
  conns <- gets connections ;;
  if existsb (Nat.eqb ws) conns then
    modify (fun s =>
      with_connections s
        (filter (fun c => negb (Nat.eqb c ws)) (connections s)))
  else raise KeyError.

(** A file-system event of the observer. *)
Record fs_event : Type := mk_fs_event {
  is_directory : bool;
  event_type : string;
  src_path : str
}.

Definition file_event (ev : fs_event) : M unit :=
  if is_directory ev then ret tt
  else if String.eqb (event_type ev) "created" then add_safe (src_path ev)
  else if String.eqb (event_type ev) "deleted" then remove (src_path ev)
  else ret tt.



End Service.

(** ** A concrete set of collaborators

    Used to run the service on concrete inputs.  The tag reader finds what
    [library] lists for a path; [clear] empties the artwork and resets the
    key and every tag to [None], keeping the path. *)
Module Studio.

(** The twenty-four Camelot notations. *)
Definition camelot : list str :=
  List.map u
    ["1A"; "2A"; "3A"; "4A"; "5A"; "6A"; "7A"; "8A"; "9A"; "10A"; "11A"; "12A";
     "1B"; "2B"; "3B"; "4B"; "5B"; "6B"; "7B"; "8B"; "9B"; "10B"; "11B"; "12B"].

Definition cover : Image.t := Image.mk (u "c0ffee") (u "<jpeg>").

(** The files of the import directory and their tags. *)
Definition library : list (str * MediaFile.t) :=
  [ (u "/import/track1.mp3",
     MediaFile.mk (u "/import/track1.mp3") [cover] (VStr (u "01A"))
       [("title", VStr (u "One")); ("artist", VStr (u "Ann"))]);
    (u "/import/track2.mp3",
     MediaFile.mk (u "/import/track2.mp3") [] VNone
       [("title", VStr (u "Two")); ("artist", VNone)]);
    (u "/import/track3.mp3",
     MediaFile.mk (u "/import/track3.mp3") [] (VStr (u "1A0"))
       [("title", VStr (u "Three")); ("artist", VNone)]);
    (u "/import/track4.aif",
     MediaFile.mk (u "/import/track4.aif") [] (VStr (u "12B"))
       [("title", VStr (u "Four")); ("artist", VNone)]) ].

Definition open (path : str) : MediaFile.t :=
  match assoc_get str_eqb path library with
  | Some m => m
  | None => MediaFile.mk path [] VNone []
  end.

Definition clear (m : MediaFile.t) : MediaFile.t :=
  MediaFile.mk (MediaFile.file_path m) [] VNone
    (List.map (fun kv => (fst kv, VNone)) (MediaFile.tags m)).

Definition to_dict (m : MediaFile.t) (trim_path : str) : dict :=
  ("file_path",
   VStr (if startswith trim_path (MediaFile.file_path m)
         then skipn (List.length trim_path) (MediaFile.file_path m)
         else MediaFile.file_path m))
  :: ("key", MediaFile.key m)
  :: ("artwork",
      VList (List.map (fun a => VStr (Image.key a)) (MediaFile.artwork m)))
  :: MediaFile.tags m.

(** A rendering of a group: its type and the identifiers of its items. *)
Definition dumps (g : group) : str :=
  u (g_type g) ++
  flat_map (fun item =>
              match dict_get "id" item with
              | Some (VStr i) => 58%N :: i
              | _ => [58%N; 63%N]
              end) (g_items g).

#[export] Instance collaborators : External := {|
  json_dumps := dumps;
  MediaFile_open := open;
  serialize := to_dict;
  media_clear := clear;
  media_reload := fun m => m;
  normalize_artwork := fun a => [a];
  determine_path := fun m => basename (MediaFile.file_path m);
  collect_files := fun _ _ => List.map fst library;
  keyfinder_camelot := fun _ => u "8A";
  camelot_values := camelot;
  has_metadata := fun _ => false;
  beatport_process := fun m => (m, []);
  CONVERTABLE_FORMATS := [u ".wav"; u ".flac"];
  stat_size := fun _ _ => 1024%N
|}.

End Studio.

#[global] Existing Instance Studio.collaborators.

(** * Vocabulary of the properties *)

(** ** A session with the concrete collaborators *)
Module Session.
Import Studio.

Definition track1 : str := u "/import/track1.mp3".
Definition track2 : str := u "/import/track2.mp3".
Definition track3 : str := u "/import/track3.mp3".
Definition id1 : str := u "19ac2f6ba9ecc5aeed1eec17639dd5f1".

Definition identifier_of (path : str) : str :=
  match file_id path with
  | Ok i => i
  | Raise _ => []
  end.

Definition after {A} (o : option (TrackProcessor * res A)) : TrackProcessor :=
  match o with
  | Some (s, _) => s
  | None => init []
  end.

(** The service after the worker has run [process_add] on [track1]. *)
Definition tracked : TrackProcessor :=
  after (process_add 0 track1 false (init (u "/import"))).

(** A save of [track1] that edits its title. *)
Definition retitle : dict :=
  [("id", VStr id1); ("artwork", VNone); ("title", VStr (u "Uno"))].

(** [track1] saved twice with a migration before its deletion is seen. *)
Definition migrated_twice : TrackProcessor :=
  fst (save_track retitle (mk_options (Some (u "/lib2")) [])
         (fst (save_track retitle (mk_options (Some (u "/lib")) []) tracked))).

(** [tracked], expecting the removal of a file that is not tracked. *)
Definition expecting_track2 : TrackProcessor :=
  with_expect_removed tracked [identifier_of track2].

End Session.

(** The events queued between [s] and [s']. *)
Definition emitted (s s' : TrackProcessor) : list event :=
  skipn (List.length (events s)) (events s').

Definition count_type (t : EventType) (l : list event) : nat :=
  List.length
    (filter (fun e => String.eqb (ev_type e) (EventType_name t)) l).

(** C2 as the specification states it: after the removal of a tracked
    file the record is gone; a marked identifier gives no [TRACK_REMOVED]
    and is no longer in the expected-removal set, an unmarked one gives
    exactly one [TRACK_REMOVED]. *)
Definition removal_clears_marker (s : TrackProcessor) (path : str) : Prop :=
  forall identifier media,
    file_id path = Ok identifier ->
    assoc_get str_eqb identifier (mediafiles s) = Some media ->
    let s' := fst (remove path s) in
    assoc_get str_eqb identifier (mediafiles s') = None
    /\ (if str_mem identifier (expect_removed s)
        then count_type TRACK_REMOVED (emitted s s') = O
             /\ str_mem identifier (expect_removed s') = false
        else count_type TRACK_REMOVED (emitted s s') = 1%nat).

(** ** Quiet computations *)

Definition is_symlink (c : os_call) : bool :=
  match c with
  | Symlink _ _ => true
  | _ => false
  end.

(** From [s] to [s'] no event was queued and no symbolic link made. *)
Definition quiet_step (s s' : TrackProcessor) : Prop :=
  events s' = events s
  /\ filter is_symlink (os_trace s') = filter is_symlink (os_trace s).

(** The computation queues no event and makes no symbolic link. *)
Definition quiet {A} (c : M A) : Prop :=
  forall s, quiet_step s (fst (c s)).

(** What the computation returns, when it returns, satisfies [Q]. *)
Definition returns {A} (c : M A) (Q : A -> Prop) : Prop :=
  forall s s' a, c s = (s', Ok a) -> Q a.

(** The computation is quiet and ends in an exception. *)
Definition blocked {A} (c : M A) : Prop :=
  forall s, quiet_step s (fst (c s)) /\ exists e, snd (c s) = Raise e.

(** ** Event types *)

Definition has_type (k : string) (e : event) : bool :=
  String.eqb (ev_type e) k.

Definition type_le (a b : event) : Prop :=
  String.leb (ev_type a) (ev_type b) = true.

(** ** Replay, flush and edits *)

Section Vocabulary.
Context `{External}.

(** The event [send_details] queues for an entry of the registry. *)
Definition details_event (h : nat -> MediaFile.t) (root : str)
  (entry : str * nat) : event :=
  mk_event "TRACK_DETAILS"
    (dict_update [("id", VStr (fst entry))] (serialize (h (snd entry)) root)).

(** The event [send_processing] queues for an entry of the processing
    list. *)
Definition processing_event (entry : str * TrackProcesses) : event :=
  mk_event "TRACK_PROCESSING"
    [("id", VStr (fst entry));
     ("process", VStr (u (TrackProcesses_name (snd entry))))].

(** The replay of the state: every record, then every processing entry. *)
Definition replay (s : TrackProcessor) : list event :=
  List.map (details_event (heap s) (import_path s)) (mediafiles s)
  ++ List.map processing_event (processing s).

(** Every serialized record can be passed to [send_event] as keywords. *)
Definition records_bindable (s : TrackProcessor) : Prop :=
  forall entry, In entry (mediafiles s) ->
    bindable ["self"; "event_type"; "identifier"]
      (serialize (heap s (snd entry)) (import_path s)) = true.

(** C3 as the specification states it: the join leaves the queue alone and
    sends one message per record and per processing entry, all of them to
    the joining session. *)
Definition replay_sent_directly (s : TrackProcessor) (ws : nat) : Prop :=
  let s' := fst (open_connection ws s) in
  events s' = events s
  /\ List.length (sent s')
     = (List.length (sent s) + List.length (mediafiles s)
        + List.length (processing s))%nat
  /\ (forall m, In m (skipn (List.length (sent s)) (sent s')) -> fst m = ws).

(** The sends of one flush: every group, serialized once, to every
    connection. *)
Definition flush (conns : list nat) (batch : list event) : list (nat * str) :=
  flat_map (fun g => List.map (fun ws => (ws, json_dumps g)) conns)
           (group_events batch).



End Vocabulary.

(** A computation that relates every state to the state it leaves. *)
Definition keeps (R : TrackProcessor -> TrackProcessor -> Prop) {A}
  (c : M A) : Prop :=
  forall s, R s (fst (c s)).

(** The media objects are the same in [s] and [s']. *)
Definition same_heap (s s' : TrackProcessor) : Prop := heap s' = heap s.



(** * Properties *)

(** ** Strings *)

Lemma str_eqb_eq (a b : str) : str_eqb a b = true <-> a = b.
Proof.
  revert b; induction a as [|x a IH]; intros [|y b]; simpl;
    try (split; [discriminate | discriminate]); try tauto.
  rewrite andb_true_iff, N.eqb_eq, IH.
  split; [intros [-> ->]; reflexivity | intros E; injection E; auto].
Qed.

Lemma str_eqb_refl (a : str) : str_eqb a a = true.
Proof. apply str_eqb_eq; reflexivity. Qed.

Lemma str_eqb_neq (a b : str) : str_eqb a b = false <-> a <> b.
Proof.
  rewrite <- str_eqb_eq. destruct (str_eqb a b); split; congruence.
Qed.

Lemma rfind_bounds (c : N) (p : str) :
  -1 <= rfind c p < Z.of_nat (List.length p).
Proof.
  induction p as [|x t IH]; simpl rfind; simpl List.length; [lia|].
  destruct (0 <=? rfind c t) eqn:E.
  - apply Z.leb_le in E. lia.
  - destruct (N.eqb x c); lia.
Qed.

Lemma rfind_app (c : N) (a b : str) :
  rfind c (a ++ b) =
  if 0 <=? rfind c b then Z.of_nat (List.length a) + rfind c b
  else rfind c a.
Proof.
  induction a as [|x a IH]; simpl app; simpl rfind; simpl List.length.
  - destruct (0 <=? rfind c b) eqn:E; [lia|].
    apply Z.leb_gt in E. pose proof (rfind_bounds c b). lia.
  - rewrite IH. destruct (0 <=? rfind c b) eqn:E.
    + apply Z.leb_le in E.
      replace (0 <=? Z.of_nat (List.length a) + rfind c b) with true
        by (symmetry; apply Z.leb_le; lia).
      lia.
    + reflexivity.
Qed.

(** The extension of [root ++ "." ++ t] when [t] has neither a dot nor a
    separator: it is split off exactly when the file name in [root] has a
    character other than a dot. *)
Lemma splitext_root_dot (root t : str) :
  rfind dot t = -1 -> rfind slash t = -1 ->
  splitext (root ++ dot :: t) =
  if has_non_dot (slice_from root (rfind slash root + 1))
  then (root, dot :: t) else (root ++ dot :: t, []).
Proof.
  intros Hd Hs. unfold splitext.
  assert (Ed : rfind dot (root ++ dot :: t) = Z.of_nat (List.length root)).
  { rewrite rfind_app. simpl rfind. rewrite Hd. simpl. lia. }
  assert (Es : rfind slash (root ++ dot :: t) = rfind slash root).
  { rewrite rfind_app. simpl rfind. rewrite Hs. reflexivity. }
  rewrite Ed, Es.
  pose proof (rfind_bounds slash root) as B.
  replace (rfind slash root <? Z.of_nat (List.length root)) with true
    by (symmetry; apply Z.ltb_lt; lia).
  unfold slice_to, slice_from.
  set (n := Z.to_nat (rfind slash root + 1)).
  assert (Hn : (n <= List.length root)%nat) by (unfold n; lia).
  rewrite skipn_app.
  replace (n - List.length root)%nat with O by lia. simpl skipn.
  replace (Z.to_nat (Z.of_nat (List.length root) - (rfind slash root + 1)))
    with (List.length (skipn n root))
    by (rewrite length_skipn; unfold n; lia).
  rewrite firstn_app, Nat.sub_diag, firstn_all. simpl firstn.
  rewrite app_nil_r.
  rewrite Nat2Z.id.
  rewrite firstn_app, Nat.sub_diag, firstn_all. simpl firstn.
  rewrite app_nil_r.
  rewrite skipn_app, skipn_all, Nat.sub_diag. simpl.
  reflexivity.
Qed.

(** A path with a non-empty extension is its root followed by it. *)
Lemma splitext_ext_inv (p : str) :
  snd (splitext p) <> [] ->
  p = fst (splitext p) ++ snd (splitext p)
  /\ List.length (fst (splitext p)) = Z.to_nat (rfind dot p).
Proof.
  unfold splitext.
  destruct (rfind slash p <? rfind dot p) eqn:E; [|simpl; congruence].
  destruct (has_non_dot _); [|simpl; congruence].
  simpl. intros _. unfold slice_to, slice_from. split.
  - symmetry; apply firstn_skipn.
  - rewrite length_firstn. pose proof (rfind_bounds dot p). lia.
Qed.

Lemma splitext_aiff (path : str) :
  snd (splitext path) = u ".aiff" ->
  splitext (drop_last 5 path ++ u ".aif") = (fst (splitext path), u ".aif").
Proof.
  intros E.
  destruct (splitext_ext_inv path) as [Hp _]; [rewrite E; discriminate|].
  rewrite E in Hp. set (root := fst (splitext path)) in *.
  assert (Hd : drop_last 5 path = root).
  { unfold drop_last. rewrite Hp, length_app. simpl List.length.
    replace (List.length root + 5 - 5)%nat with (List.length root) by lia.
    rewrite firstn_app, Nat.sub_diag, firstn_all. simpl. apply app_nil_r. }
  rewrite Hd.
  assert (Hsplit : splitext (root ++ u ".aiff") = (root, u ".aiff")).
  { rewrite <- Hp. subst root. rewrite <- E. apply surjective_pairing. }
  change (u ".aiff") with (dot :: u "aiff") in Hsplit.
  rewrite splitext_root_dot in Hsplit by reflexivity.
  change (u ".aif") with (dot :: u "aif").
  rewrite splitext_root_dot by reflexivity.
  destruct (has_non_dot _); [reflexivity|].
  injection Hsplit as Hbad _.
  apply (f_equal (@List.length N)) in Hbad. rewrite length_app in Hbad.
  simpl in Hbad. lia.
Qed.

(** C4. [file_id] depends on a path only through the path without its
    extension: two paths with the same [splitext] root have the same
    identifier, and the path that [process_add] renames a [.aiff] file to
    ([path[:-5] + ".aif"]) has the identifier of the original path. *)
Theorem file_id_ignores_extension (p1 p2 path : str) :
  (fst (splitext p1) = fst (splitext p2) -> file_id p1 = file_id p2)
  /\ (snd (splitext path) = u ".aiff" ->
      file_id (drop_last 5 path ++ u ".aif") = file_id path).
Proof.
  split.
  - intros E. unfold file_id. rewrite E. reflexivity.
  - intros E. unfold file_id. rewrite (splitext_aiff path E). reflexivity.
Qed.

Lemma file_id_ignores_extension_witness :
  fst (splitext (u "/import/a.b/set.aiff"))
  = fst (splitext (u "/import/a.b/set.mp3"))
  /\ snd (splitext (u "/import/a.b/set.aiff")) = u ".aiff"
  /\ file_id (u "/import/a.b/set.aiff") = file_id (u "/import/a.b/set.mp3")
  /\ file_id (drop_last 5 (u "/import/a.b/set.aiff") ++ u ".aif")
     = file_id (u "/import/a.b/set.aiff").
Proof.
  pose proof (file_id_ignores_extension
                (u "/import/a.b/set.aiff") (u "/import/a.b/set.mp3")
                (u "/import/a.b/set.aiff")) as [H1 H2].
  split; [reflexivity|]. split; [reflexivity|].
  split; [apply H1; reflexivity | apply H2; reflexivity].
Defined.
Example md5_empty :
  MD5.hexdigest [] = u "d41d8cd98f00b204e9800998ecf8427e".
Proof. vm_compute. reflexivity. Qed.

Example file_id_music_a :
  file_id (u "/music/a.aiff") = Ok (u "3969d39d4db983f695464d42e898060b").
Proof. vm_compute. reflexivity. Qed.

Example file_id_long :
  file_id (repeat 97%N 70 ++ u ".mp3")
  = Ok (u "0f5c6c4e740bfcc08c3c26ccb2673d46").
Proof. vm_compute. reflexivity. Qed.

Example file_id_utf8 :
  file_id [47%N; 109%N; 47%N; 233%N]
  = Ok (u "7461c35a3349e5279384d7182dbcf460").
Proof. vm_compute. reflexivity. Qed.

Example splitext_examples :
  splitext (u "/a/b.aiff") = (u "/a/b", u ".aiff")
  /\ splitext (u "/a/.aiff") = (u "/a/.aiff", [])
  /\ splitext (u "a.b/c") = (u "a.b/c", [])
  /\ splitext (u "/a/..x.aiff") = (u "/a/..x", u ".aiff")
  /\ splitext (u "x..aiff") = (u "x.", u ".aiff").
Proof. vm_compute. repeat split. Qed.

(** ** Lists and dictionaries *)

Section AssocFacts.
Context {K V : Type} (eqb : K -> K -> bool).
Hypothesis eqb_eq : forall a b, eqb a b = true <-> a = b.

Lemma mem_In (x : K) (l : list K) : mem eqb x l = true <-> In x l.
Proof.
  unfold mem. rewrite existsb_exists. split.
  - intros [y [Hy E]]. apply eqb_eq in E. subst y. exact Hy.
  - intros Hx. exists x. split; [exact Hx | apply eqb_eq; reflexivity].
Qed.

(** [l.remove(x)] on a list that holds [x] drops its first occurrence and
    nothing else. *)
Lemma list_remove_first (x : K) (l : list K) :
  In x l ->
  exists before after,
    l = before ++ x :: after /\ ~ In x before
    /\ list_remove eqb x l = Ok (before ++ after).
Proof.
  induction l as [|y t IH]; simpl; [tauto|].
  intros Hin. destruct (eqb y x) eqn:E.
  - apply eqb_eq in E. subst y. exists [], t. simpl. tauto.
  - assert (Hne : y <> x).
    { intros ->. rewrite (proj2 (eqb_eq x x) eq_refl) in E. discriminate. }
    destruct Hin as [Hyx | Hin]; [contradiction|].
    destruct (IH Hin) as [b [a [Hl [Hb Hr]]]].
    exists (y :: b), a. simpl. rewrite Hr, Hl.
    split; [reflexivity|]. split; [|reflexivity].
    intros [H1 | H1]; auto.
Qed.

Lemma assoc_get_del_same (k : K) (d : list (K * V)) :
  assoc_get eqb k (assoc_del eqb k d) = None.
Proof.
  induction d as [|[k' v'] t IH]; simpl; [reflexivity|].
  destruct (eqb k' k) eqn:E; [exact IH|]. simpl. rewrite E. exact IH.
Qed.

Lemma assoc_get_set (k k' : K) (v : V) (d : list (K * V)) :
  assoc_get eqb k (assoc_set eqb k' v d) =
  if eqb k' k then Some v else assoc_get eqb k d.
Proof.
  induction d as [|[k0 v0] t IH]; simpl.
  - reflexivity.
  - destruct (eqb k0 k') eqn:E0; simpl.
    + apply eqb_eq in E0. subst k0. destruct (eqb k' k); reflexivity.
    + rewrite IH. destruct (eqb k0 k) eqn:E1; [|reflexivity].
      destruct (eqb k' k) eqn:E2; [|reflexivity].
      apply eqb_eq in E1, E2. subst.
      rewrite (proj2 (eqb_eq k k) eq_refl) in E0. discriminate.
Qed.

Lemma assoc_get_app (k : K) (a b : list (K * V)) :
  assoc_get eqb k (a ++ b) =
  match assoc_get eqb k a with
  | Some v => Some v
  | None => assoc_get eqb k b
  end.
Proof.
  induction a as [|[k0 v0] t IH]; simpl; [reflexivity|].
  destruct (eqb k0 k); [reflexivity | exact IH].
Qed.

(** After [d.update(other)] a key has the last value [other] gives it, and
    its value in [d] when [other] does not have it. *)
Lemma assoc_get_update (k : K) (d other : list (K * V)) :
  assoc_get eqb k (assoc_update eqb d other) =
  match assoc_get eqb k (rev other) with
  | Some v => Some v
  | None => assoc_get eqb k d
  end.
Proof.
  unfold assoc_update. revert d.
  induction other as [|[k0 v0] t IH]; intros d; simpl; [reflexivity|].
  rewrite IH, assoc_get_app, assoc_get_set. simpl.
  destruct (assoc_get eqb k (rev t)); [reflexivity|].
  destruct (eqb k0 k); reflexivity.
Qed.

Lemma assoc_get_not_key (k : K) (d : list (K * V)) :
  ~ In k (List.map fst d) -> assoc_get eqb k d = None.
Proof.
  induction d as [|[k0 v0] t IH]; simpl; [reflexivity|].
  intros Hn. destruct (eqb k0 k) eqn:E.
  - apply eqb_eq in E. tauto.
  - apply IH. tauto.
Qed.

Lemma assoc_get_key (k : K) (d : list (K * V)) :
  assoc_get eqb k d <> None -> In k (List.map fst d).
Proof.
  induction d as [|[k0 v0] t IH]; simpl; [congruence|].
  destruct (eqb k0 k) eqn:E.
  - apply eqb_eq in E. auto.
  - auto.
Qed.

Lemma assoc_set_keys (k : K) (v : V) (d : list (K * V)) :
  List.map fst (assoc_set eqb k v d) =
  if assoc_mem eqb k d then List.map fst d else List.map fst d ++ [k].
Proof.
  unfold assoc_mem. induction d as [|[k0 v0] t IH]; simpl; [reflexivity|].
  destruct (eqb k0 k) eqn:E; simpl; [reflexivity|].
  rewrite IH. destruct (assoc_get eqb k t); reflexivity.
Qed.

Lemma assoc_key_get (k : K) (d : list (K * V)) :
  In k (List.map fst d) -> assoc_get eqb k d <> None.
Proof.
  induction d as [|[k0 v0] t IH]; simpl; [tauto|].
  intros [-> | Hx].
  - rewrite (proj2 (eqb_eq k k) eq_refl). discriminate.
  - destruct (eqb k0 k); [discriminate | auto].
Qed.

Lemma assoc_set_nodup (k : K) (v : V) (d : list (K * V)) :
  NoDup (List.map fst d) -> NoDup (List.map fst (assoc_set eqb k v d)).
Proof.
  intros Hd. rewrite assoc_set_keys. unfold assoc_mem.
  destruct (assoc_get eqb k d) eqn:E; [exact Hd|].
  apply NoDup_app; [exact Hd | repeat constructor; simpl; tauto |].
  intros x Hx [Hk | []]. subst x.
  apply assoc_key_get in Hx. congruence.
Qed.

Lemma assoc_update_nodup (d other : list (K * V)) :
  NoDup (List.map fst d) -> NoDup (List.map fst (assoc_update eqb d other)).
Proof.
  unfold assoc_update. revert d.
  induction other as [|[k v] t IH]; intros d Hd; simpl; [exact Hd|].
  apply IH. apply assoc_set_nodup. exact Hd.
Qed.

(** In a dictionary the last binding of a key is its only one. *)
Lemma assoc_get_rev (k : K) (d : list (K * V)) :
  NoDup (List.map fst d) -> assoc_get eqb k (rev d) = assoc_get eqb k d.
Proof.
  induction d as [|[k0 v0] t IH]; simpl; [reflexivity|].
  intros Hd. inversion Hd as [|? ? Hn Ht]; subst.
  rewrite assoc_get_app, (IH Ht). simpl.
  destruct (eqb k0 k) eqn:E.
  - apply eqb_eq in E. subst k0. rewrite (assoc_get_not_key k t Hn).
    reflexivity.
  - destruct (assoc_get eqb k t); reflexivity.
Qed.

End AssocFacts.

Lemma entry_eqb_eq (a b : str * TrackProcesses) :
  entry_eqb a b = true <-> a = b.
Proof.
  destruct a as [i p], b as [j q]. unfold entry_eqb. simpl.
  rewrite andb_true_iff, str_eqb_eq. split.
  - intros [-> E]. destruct p, q; simpl in E; congruence.
  - intros E. injection E as -> ->. split; [reflexivity|destruct q; reflexivity].
Qed.

Lemma bindable_get (params : list string) (kwargs : dict) (k : string) :
  bindable params kwargs = true -> In k params ->
  dict_get k (rev kwargs) = None.
Proof.
  unfold bindable. rewrite forallb_forall. intros Hb Hk.
  assert (Hall : forall kv, In kv (rev kwargs) -> fst kv <> k).
  { intros kv Hin E. apply in_rev in Hin. specialize (Hb kv Hin).
    apply negb_true_iff in Hb. subst k.
    apply (mem_In String.eqb String.eqb_eq) in Hk. congruence. }
  induction (rev kwargs) as [|[k0 v0] t IH]; simpl; [reflexivity|].
  destruct (String.eqb k0 k) eqn:E.
  - apply String.eqb_eq in E. exfalso. apply (Hall (k0, v0)); simpl; auto.
  - apply IH. intros kv Hin. apply Hall. right. exact Hin.
Qed.

Lemma bindable_set (params : list string) (d : dict) (k : string) (v : value) :
  bindable params d = true -> mem String.eqb k params = false ->
  bindable params (dict_set k v d) = true.
Proof.
  unfold bindable, dict_set. intros Hd Hk.
  induction d as [|[k0 v0] t IH]; simpl in *.
  - rewrite Hk. reflexivity.
  - apply andb_true_iff in Hd. destruct Hd as [H0 Ht].
    destruct (String.eqb k0 k); simpl; rewrite H0; simpl; auto.
Qed.

Lemma bindable_update (params : list string) (d kwargs : dict) :
  bindable params d = true -> bindable params kwargs = true ->
  bindable params (dict_update d kwargs) = true.
Proof.
  unfold dict_update, assoc_update. revert d.
  induction kwargs as [|[k v] t IH]; intros d Hd Hk; simpl; [exact Hd|].
  unfold bindable in Hk. simpl in Hk. apply andb_true_iff in Hk.
  destruct Hk as [Hk Ht]. apply negb_true_iff in Hk.
  apply IH; [|exact Ht]. apply bindable_set; assumption.
Qed.

(** ** The processing list *)

(** C1. When [(identifier, stage)] is in the processing list and the result
    fields can be passed as keywords (none is named like a parameter of
    [done_processing] or [send_event]), [done_processing] returns, removes
    exactly one entry, the first one equal to [(identifier, stage)], leaves
    the rest of the list in place, and queues exactly one event: a
    [TRACK_UPDATE] whose item has [completed_process] equal to the name of
    the stage and every result field with the value given for it. *)
Theorem done_processing_removes_one_and_reports
  (s : TrackProcessor) (identifier : str) (stage : TrackProcesses)
  (kwargs : dict) :
  In (identifier, stage) (processing s) ->
  bindable ["self"; "identifier"; "completed_process"] kwargs = true ->
  bindable ["self"; "event_type"; "identifier"] kwargs = true ->
  exists before after item,
    processing s = before ++ (identifier, stage) :: after
    /\ ~ In (identifier, stage) before
    /\ done_processing identifier stage kwargs s
       = (with_events (with_processing s (before ++ after))
            (events s ++ [mk_event "TRACK_UPDATE" item]), Ok tt)
    /\ dict_get "completed_process" item
       = Some (VStr (u (TrackProcesses_name stage)))
    /\ (forall k v, dict_get k (rev kwargs) = Some v ->
                    dict_get k item = Some v).
Proof.
  intros Hin Hb1 Hb2.
  destruct (list_remove_first entry_eqb entry_eqb_eq _ _ Hin)
    as [before [after [Hl [Hnot Hrm]]]].
  set (inner := dict_update
        [("completed_process", VStr (u (TrackProcesses_name stage)))] kwargs).
  assert (Hinner : bindable ["self"; "event_type"; "identifier"] inner = true).
  { apply bindable_update; [reflexivity | exact Hb2]. }
  exists before, after, (dict_update [("id", VStr identifier)] inner).
  split; [exact Hl|]. split; [exact Hnot|]. split.
  - unfold done_processing, bind, bind_kwargs, gets, lift, modify.
    rewrite Hb1. unfold ret. rewrite Hrm.
    unfold send_event, bind, bind_kwargs. fold inner. rewrite Hinner.
    reflexivity.
  - assert (Hitem : forall k,
      dict_get k (dict_update [("id", VStr identifier)] inner) =
      match dict_get k inner with
      | Some v => Some v
      | None => dict_get k [("id", VStr identifier)]
      end).
    { intros k. unfold dict_get, dict_update.
      rewrite (assoc_get_update String.eqb String.eqb_eq).
      rewrite (assoc_get_rev String.eqb String.eqb_eq); [reflexivity|].
      apply (assoc_update_nodup String.eqb String.eqb_eq).
      repeat constructor. simpl. tauto. }
    assert (Hget : forall k,
      dict_get k inner =
      match dict_get k (rev kwargs) with
      | Some v => Some v
      | None =>
          dict_get k
            [("completed_process", VStr (u (TrackProcesses_name stage)))]
      end).
    { intros k. unfold inner, dict_get, dict_update.
      apply (assoc_get_update String.eqb String.eqb_eq). }
    split.
    + rewrite Hitem, Hget.
      rewrite (bindable_get _ _ _ Hb1) by (simpl; auto).
      reflexivity.
    + intros k v Hk. rewrite Hitem, Hget, Hk. reflexivity.
Qed.

Lemma done_processing_removes_one_and_reports_witness :
  let s := fst (add_processing (u "19ac") KEY_COMPUTING (init (u "/import"))) in
  In (u "19ac", KEY_COMPUTING) (processing s)
  /\ exists item,
       done_processing (u "19ac") KEY_COMPUTING [("key", VStr (u "08A"))] s
       = (with_events (with_processing s [])
            (events s ++ [mk_event "TRACK_UPDATE" item]), Ok tt)
       /\ dict_get "key" item = Some (VStr (u "08A")).
Proof.
  intros s.
  assert (Hin : In (u "19ac", KEY_COMPUTING) (processing s))
    by (simpl; auto).
  split; [exact Hin|].
  destruct (done_processing_removes_one_and_reports s (u "19ac")
              KEY_COMPUTING [("key", VStr (u "08A"))] Hin eq_refl eq_refl)
    as [before [after [item [Hl [Hn [Hrun [_ Hf]]]]]]].
  exists item. split; [|apply Hf; reflexivity].
  destruct before as [|e before].
  - simpl in Hl. injection Hl as <-. exact Hrun.
  - exfalso. simpl in Hl. injection Hl as <- _. apply Hn. simpl. auto.
Defined.

(** ** Removal *)

Lemma remove_evicts_artwork (keys : list str) (s : TrackProcessor) :
  for_each keys (fun k =>
    modify (fun s => with_artwork s (assoc_del str_eqb k (artwork s)))) s
  = (with_artwork s
       (fold_left (fun a k => assoc_del str_eqb k a) keys (artwork s)),
     Ok tt).
Proof.
  revert s. induction keys as [|k t IH]; intros s; simpl.
  - destruct s; reflexivity.
  - unfold bind, modify at 1. rewrite IH. reflexivity.
Qed.

(** C10. When the identifier of the path is not a key of the registry,
    [remove] returns and the state is the one it started from: no record
    and no cached artwork is deleted, no event is queued, and the
    expected-removal list is not touched, whether or not it holds the
    identifier. *)
Theorem remove_unknown_is_noop
  (s : TrackProcessor) (path identifier : str) :
  file_id path = Ok identifier ->
  assoc_get str_eqb identifier (mediafiles s) = None ->
  remove path s = (s, Ok tt).
Proof.
  intros Hid Hnone. unfold remove, bind, lift, gets.
  rewrite Hid, Hnone. reflexivity.
Qed.

Lemma remove_tracked_eq
  (s : TrackProcessor) (path identifier : str) (media : nat) :
  file_id path = Ok identifier ->
  assoc_get str_eqb identifier (mediafiles s) = Some media ->
  remove path s =
  let s1 :=
    with_mediafiles
      (with_artwork s
         (fold_left (fun a k => assoc_del str_eqb k a)
            (List.map Image.key (MediaFile.artwork (heap s media)))
            (artwork s)))
      (assoc_del str_eqb identifier (mediafiles s)) in
  if str_mem identifier (expect_removed s) then
    match list_remove str_eqb identifier (expect_removed s) with
    | Ok l => (with_expect_removed s1 l, Ok tt)
    | Raise e => (s1, Raise e)
    end
  else
    (with_events s1
       (events s ++ [mk_event "TRACK_REMOVED" [("id", VStr identifier)]]),
     Ok tt).
Proof.
  intros Hid Hsome. unfold remove, bind at 1, lift. rewrite Hid.
  unfold bind at 1, gets at 1. rewrite Hsome.
  unfold bind at 1, deref, gets at 1.
  unfold bind at 1. rewrite remove_evicts_artwork.
  unfold bind at 1, modify at 1. unfold bind at 1, gets at 1.
  cbn [expect_removed with_mediafiles with_artwork].
  destruct (str_mem identifier (expect_removed s)); cbn [negb].
  - unfold bind, lift, modify.
    destruct (list_remove str_eqb identifier (expect_removed s)); reflexivity.
  - reflexivity.
Qed.

(** C2, as amended.  For a path whose identifier is tracked, [remove]
    returns and the identifier is no longer a key of the registry.  When
    the expected-removal list holds the identifier, no event is queued and
    the first occurrence of the identifier, and only that one, leaves the
    list; when it does not, exactly one event is queued, a
    [TRACK_REMOVED] for the identifier, and the list is unchanged. *)
Theorem remove_tracked
  (s : TrackProcessor) (path identifier : str) (media : nat) :
  file_id path = Ok identifier ->
  assoc_get str_eqb identifier (mediafiles s) = Some media ->
  let s' := fst (remove path s) in
  snd (remove path s) = Ok tt
  /\ assoc_get str_eqb identifier (mediafiles s') = None
  /\ (str_mem identifier (expect_removed s) = true ->
      events s' = events s
      /\ exists before after,
           expect_removed s = before ++ identifier :: after
           /\ ~ In identifier before
           /\ expect_removed s' = before ++ after)
  /\ (str_mem identifier (expect_removed s) = false ->
      events s'
      = events s ++ [mk_event "TRACK_REMOVED" [("id", VStr identifier)]]
      /\ expect_removed s' = expect_removed s).
Proof.
  intros Hid Hsome s'. subst s'.
  rewrite (remove_tracked_eq s path identifier media Hid Hsome).
  cbv zeta.
  destruct (str_mem identifier (expect_removed s)) eqn:Em.
  - apply (mem_In str_eqb str_eqb_eq) in Em.
    destruct (list_remove_first str_eqb str_eqb_eq _ _ Em)
      as [before [after [Hl [Hn Hrm]]]].
    rewrite Hrm. cbn [fst snd mediafiles events expect_removed
      with_expect_removed with_mediafiles with_artwork].
    split; [reflexivity|]. split; [apply assoc_get_del_same|].
    split; [|discriminate]. intros _. split; [reflexivity|].
    exists before, after. auto.
  - cbn [fst snd mediafiles events expect_removed
      with_events with_mediafiles with_artwork].
    split; [reflexivity|]. split; [apply assoc_get_del_same|].
    split; [discriminate|]. intros _. split; reflexivity.
Qed.

Lemma remove_unknown_is_noop_witness :
  str_mem (Session.identifier_of Session.track2)
    (expect_removed Session.expecting_track2) = true
  /\ remove Session.track2 Session.expecting_track2
     = (Session.expecting_track2, Ok tt).
Proof.
  split; [vm_compute; reflexivity|].
  apply (remove_unknown_is_noop Session.expecting_track2 Session.track2
           (Session.identifier_of Session.track2));
    vm_compute; reflexivity.
Defined.

Lemma remove_tracked_witness :
  file_id Session.track1 = Ok Session.id1
  /\ snd (remove Session.track1 Session.tracked) = Ok tt
  /\ assoc_get str_eqb Session.id1
       (mediafiles (fst (remove Session.track1 Session.tracked))) = None.
Proof.
  assert (H1 : file_id Session.track1 = Ok Session.id1)
    by (vm_compute; reflexivity).
  assert (H2 : assoc_get str_eqb Session.id1 (mediafiles Session.tracked)
               = Some O) by (vm_compute; reflexivity).
  destruct (remove_tracked Session.tracked Session.track1 Session.id1 O H1 H2)
    as [Hr [Hg _]].
  split; [exact H1|]. split; [exact Hr | exact Hg].
Defined.

(** The first file saved with a migration twice, then deleted: the
    deletion is silent and the identifier is still expected to be
    removed. *)
Lemma removal_clears_marker_fails :
  ~ removal_clears_marker Session.migrated_twice Session.track1.
Proof.
  intros H.
  assert (H1 : file_id Session.track1 = Ok Session.id1)
    by (vm_compute; reflexivity).
  assert (H2 : assoc_get str_eqb Session.id1
                 (mediafiles Session.migrated_twice) = Some O)
    by (vm_compute; reflexivity).
  specialize (H Session.id1 O H1 H2). destruct H as [_ H].
  vm_compute in H. destruct H as [_ H]. discriminate H.
Qed.

(** ** The worker pool *)

Lemma with_executor_drop (s : TrackProcessor) (t : task) :
  executor s = [] ->
  with_executor (fst (execute_paralell t s)) [] = s.
Proof.
  destruct s; simpl. intros ->. reflexivity.
Qed.



(** ** Saving *)

Lemma quiet_step_refl (s : TrackProcessor) : quiet_step s s.
Proof. split; reflexivity. Qed.

Lemma quiet_step_trans (s1 s2 s3 : TrackProcessor) :
  quiet_step s1 s2 -> quiet_step s2 s3 -> quiet_step s1 s3.
Proof. intros [A1 B1] [A2 B2]. split; congruence. Qed.

Lemma quiet_ret {A} (a : A) : quiet (ret a).
Proof. intros s. apply quiet_step_refl. Qed.

Lemma quiet_raise {A} (e : exn) : quiet (@raise A e).
Proof. intros s. apply quiet_step_refl. Qed.

Lemma quiet_lift {A} (r : res A) : quiet (lift r).
Proof. intros s. apply quiet_step_refl. Qed.

Lemma quiet_gets {A} (f : TrackProcessor -> A) : quiet (gets f).
Proof. intros s. apply quiet_step_refl. Qed.

Lemma quiet_modify (f : TrackProcessor -> TrackProcessor) :
  (forall s, quiet_step s (f s)) -> quiet (modify f).
Proof. intros Hf s. apply Hf. Qed.

Lemma quiet_bind {A B} (c : M A) (k : A -> M B) :
  quiet c -> (forall a, quiet (k a)) -> quiet (bind c k).
Proof.
  intros Hc Hk s. unfold bind. specialize (Hc s).
  destruct (c s) as [s1 [a|e]]; simpl in *; [|exact Hc].
  eapply quiet_step_trans; [exact Hc | apply Hk].
Qed.

Lemma quiet_for_each {A} (l : list A) (body : A -> M unit) :
  (forall x, quiet (body x)) -> quiet (for_each l body).
Proof.
  intros Hb. induction l as [|x t IH]; simpl.
  - apply quiet_ret.
  - apply quiet_bind; [apply Hb | intros _; exact IH].
Qed.

Lemma quiet_store (r : nat) (m : MediaFile.t) : quiet (store r m).
Proof. apply quiet_modify. intros s. split; reflexivity. Qed.

Lemma quiet_os_do (c : os_call) : is_symlink c = false -> quiet (os_do c).
Proof.
  intros Hc. apply quiet_modify. intros s. split; [reflexivity|].
  cbn [os_trace with_os_trace]. rewrite filter_app. simpl. rewrite Hc.
  apply app_nil_r.
Qed.

Lemma blocked_raise {A} (e : exn) : blocked (@raise A e).
Proof. intros s. split; [apply quiet_step_refl | exists e; reflexivity]. Qed.

Lemma blocked_bind_l {A B} (c : M A) (k : A -> M B) :
  blocked c -> blocked (bind c k).
Proof.
  intros Hc s. unfold bind. destruct (Hc s) as [Hq [e He]].
  destruct (c s) as [s1 [a|e1]]; simpl in *; [discriminate|].
  split; [exact Hq | exists e1; reflexivity].
Qed.

Lemma blocked_bind_r {A B} (c : M A) (k : A -> M B) (Q : A -> Prop) :
  quiet c -> returns c Q -> (forall a, Q a -> blocked (k a)) ->
  blocked (bind c k).
Proof.
  intros Hq Hr Hk s. unfold bind. specialize (Hq s).
  destruct (c s) as [s1 [a|e]] eqn:Ec; simpl in *.
  - destruct (Hk a (Hr _ _ _ Ec) s1) as [Hq1 He].
    split; [eapply quiet_step_trans; eassumption | exact He].
  - split; [exact Hq | exists e; reflexivity].
Qed.

Lemma returns_any {A} (c : M A) : returns c (fun _ => True).
Proof. intros s s' a _. exact I. Qed.

Lemma returns_ret {A} (a : A) (Q : A -> Prop) : Q a -> returns (ret a) Q.
Proof. intros Ha s s' b E. injection E as _ <-. exact Ha. Qed.

Lemma returns_bind {A B} (c : M A) (k : A -> M B) (Q : B -> Prop) :
  (forall a, returns (k a) Q) -> returns (bind c k) Q.
Proof.
  intros Hk s s' b. unfold bind. destruct (c s) as [s1 [a|e]]; [|discriminate].
  apply Hk.
Qed.

Ltac quiet_tac :=
  repeat first
    [ apply quiet_lift | apply quiet_gets | apply quiet_store
    | apply quiet_ret | apply quiet_raise
    | apply quiet_os_do; reflexivity
    | apply quiet_modify; intros; split; reflexivity
    | apply quiet_bind
    | apply quiet_for_each
    | intros ].

Ltac blocked_step :=
  apply blocked_bind_r with (Q := fun _ => True);
  [ quiet_tac | apply returns_any | intros ? _ ].

Lemma blocked_lift_raise {A} (r : res A) (e : exn) :
  r = Raise e -> blocked (lift r).
Proof.
  intros -> s. split; [apply quiet_step_refl | exists e; reflexivity].
Qed.

(** C8, on the code.  A save whose options list at least one link path
    never returns: it ends in an exception, makes no symbolic link and
    queues no event, so no [TRACK_SAVED] either. *)
Theorem save_track_with_links_raises
  `{External} (s : TrackProcessor) (track : dict) (options : Options) :
  link_paths options <> [] ->
  quiet_step s (fst (save_track track options s))
  /\ exists e, snd (save_track track options s) = Raise e.
Proof.
  intros Hlinks. revert s. change (blocked (save_track track options)).
  unfold save_track.
  do 3 blocked_step.
  destruct (match a0 with
            | Some i => option_map (pair i) (assoc_get str_eqb i a1)
            | None => None
            end) as [[identifier media]|]; [|apply blocked_raise].
  do 4 blocked_step.
  do 2 blocked_step.
  do 3 blocked_step.
  apply blocked_bind_r
    with (Q := fun scope => assoc_get String.eqb "new_path" scope = None).
  - destruct (migrate_path options) as [root|]; [|quiet_tac].
    destruct (truthy (VStr root)); quiet_tac.
  - destruct (migrate_path options) as [root|].
    + destruct (truthy (VStr root)).
      * repeat (apply returns_bind; intros). apply returns_ret. reflexivity.
      * apply returns_ret. reflexivity.
    + apply returns_ret. reflexivity.
  - intros scope Hscope. apply blocked_bind_l.
    destruct (link_paths options) as [|link_path rest]; [contradiction|].
    simpl for_each. apply blocked_bind_l.
    do 2 blocked_step. apply blocked_bind_l.
    apply blocked_lift_raise with (e := NameError).
    unfold name_lookup. cbn [assoc_get String.eqb Ascii.eqb Bool.eqb].
    rewrite Hscope. reflexivity.
Qed.

Lemma save_track_with_links_raises_witness :
  let options := mk_options None [u "/links"] in
  link_paths options <> []
  /\ snd (save_track Session.retitle options Session.tracked)
     = Raise NameError
  /\ events (fst (save_track Session.retitle options Session.tracked))
     = events Session.tracked.
Proof.
  intros options.
  assert (Hl : link_paths options <> []) by discriminate.
  destruct (save_track_with_links_raises Session.tracked Session.retitle
              options Hl) as [[Hev _] _].
  split; [exact Hl|]. split; [vm_compute; reflexivity | exact Hev].
Defined.

(** ** Key validation *)

(** C7, on the code.  A stored key ["1A0"] is no Camelot notation, with or
    without its leading zeros, but [strip("0")] also drops the trailing
    zero: the test of [process_add] takes the key for valid.  Adding an
    [.mp3] file with that key submits no [compute_key] and leaves the key
    as it is. *)
Theorem key_with_trailing_zero_is_not_recomputed
  `{External} (s : TrackProcessor) (path identifier : str) :
  In (u "1A") camelot_values ->
  ~ In (u "1A0") camelot_values ->
  file_id path = Ok identifier ->
  snd (splitext path) = u ".mp3" ->
  str_mem (u ".mp3") CONVERTABLE_FORMATS = false ->
  MediaFile.key (MediaFile_open path) = VStr (u "1A0") ->
  str_mem (lstrip zero_digit (u "1A0")) camelot_values = false
  /\ key_missing_or_invalid (VStr (u "1A0")) = Ok false
  /\ exists s' r,
       process_add 0 path false s = Some (s', r)
       /\ executor s'
          = executor s ++
            (if has_metadata (MediaFile_open path)
             then [T_beatport_update identifier (next_ref s)] else [])
       /\ MediaFile.key (heap s' (next_ref s)) = VStr (u "1A0").
Proof.
  intros Hin Hnot Hid Hext Hconv Hkey.
  assert (Hvalid : key_missing_or_invalid (VStr (u "1A0")) = Ok false).
  { unfold key_missing_or_invalid. cbn [truthy u negb].
    change (strip zero_digit (u "1A0")) with (u "1A").
    apply (mem_In str_eqb str_eqb_eq) in Hin. unfold str_mem.
    rewrite Hin. reflexivity. }
  split.
  { change (lstrip zero_digit (u "1A0")) with (u "1A0").
    destruct (str_mem (u "1A0") camelot_values) eqn:E; [|reflexivity].
    apply (mem_In str_eqb str_eqb_eq) in E. contradiction. }
  split; [exact Hvalid|].
  assert (Hsame : forall r m h, heap_set r m h r = m).
  { intros. unfold heap_set. rewrite Nat.eqb_refl. reflexivity. }
  unfold process_add. rewrite Hid, Hext. cbn [andb].
  unfold process_add_body.
  change (str_eqb (u ".mp3") (u ".aiff")) with false. cbv iota.
  unfold bind at 1. unfold ret at 1. cbv iota beta.
  rewrite Hconv.
  change (str_mem (u ".mp3") VALID_FORMATS) with true. cbn [negb].
  unfold bind at 1. unfold alloc at 1. cbv iota beta.
  unfold bind at 1. unfold deref at 1, gets at 1. cbv iota beta.
  cbn [heap with_heap]. rewrite !Hsame.
  unfold bind at 1. unfold lift at 1. rewrite Hkey, Hvalid. cbv iota beta.
  unfold bind at 1. unfold ret at 1. cbv iota beta.
  unfold bind at 1. unfold deref at 1, gets at 1. cbv iota beta.
  cbn [heap with_heap]. rewrite !Hsame.
  set (m := MediaFile_open path) in *.
  set (s1 := with_heap s (heap_set (next_ref s) m (heap s)) (S (next_ref s))).
  set (tail :=
    (modify (fun s0 =>
       with_mediafiles s0
         (assoc_set str_eqb identifier (next_ref s) (mediafiles s0))) ;;
     cache_art (MediaFile.artwork m) ;;
     root <- gets import_path ;;
     send_details identifier (serialize m root))%tp).
  assert (Htail : forall s2,
    executor (fst (tail s2)) = executor s2
    /\ heap (fst (tail s2)) = heap s2).
  { intros s2.
    cbv beta iota delta [tail bind modify cache_art gets send_details
      send_event bind_kwargs ret raise].
    cbn [import_path with_artwork with_mediafiles].
    match goal with
    | |- context [bindable ?ps ?kw] => destruct (bindable ps kw)
    end; cbn; split; reflexivity. }
  unfold bind at 1.
  destruct (has_metadata m) eqn:Emeta.
  - unfold execute_paralell, modify. cbv iota beta.
    destruct (Htail (with_executor s1
            (executor s1 ++ [T_beatport_update identifier (next_ref s)])))
      as [He Hh].
    destruct (tail _) as [s' r]. exists s', r. cbn [fst] in He, Hh.
    split; [reflexivity|]. rewrite He, Hh. split; [reflexivity|].
    cbn [heap with_executor with_heap s1]. rewrite Hsame. exact Hkey.
  - unfold ret. cbv iota beta.
    destruct (Htail s1) as [He Hh].
    destruct (tail s1) as [s' r]. exists s', r. cbn [fst] in He, Hh.
    split; [reflexivity|]. rewrite He, Hh. split.
    + cbn [executor with_heap s1]. symmetry. apply app_nil_r.
    + cbn [heap with_heap s1]. rewrite Hsame. exact Hkey.
Qed.

Lemma key_with_trailing_zero_is_not_recomputed_witness :
  MediaFile.key (Studio.open Session.track3) = VStr (u "1A0")
  /\ exists s' r,
       process_add 0 Session.track3 false (init (u "/import")) = Some (s', r)
       /\ executor s' = []
       /\ MediaFile.key (heap s' O) = VStr (u "1A0").
Proof.
  split; [reflexivity|].
  assert (Hin : In (u "1A") camelot_values) by (simpl; auto).
  assert (Hnot : ~ In (u "1A0") camelot_values).
  { intros Hbad. apply (mem_In str_eqb str_eqb_eq) in Hbad.
    vm_compute in Hbad. discriminate Hbad. }
  destruct (key_with_trailing_zero_is_not_recomputed
              (init (u "/import")) Session.track3
              (Session.identifier_of Session.track3) Hin Hnot)
    as [_ [_ [s' [r [Hrun [Hex Hk]]]]]];
    try (vm_compute; reflexivity).
  exists s', r. split; [exact Hrun|]. split; [exact Hex | exact Hk].
Defined.

(** ** Joining *)

Section Replay.
Context `{External}.

Lemma for_each_cons {A} (x : A) (t : list A) (body : A -> M unit)
  (s : TrackProcessor) :
  for_each (x :: t) body s =
  match body x s with
  | (s', Ok _) => for_each t body s'
  | (s', Raise e) => (s', Raise e)
  end.
Proof. reflexivity. Qed.

Lemma with_events_same (s : TrackProcessor) : with_events s (events s) = s.
Proof. destruct s; reflexivity. Qed.

Lemma report_tracks (l : list (str * nat)) (s : TrackProcessor) :
  (forall entry, In entry l ->
     bindable ["self"; "event_type"; "identifier"]
       (serialize (heap s (snd entry)) (import_path s)) = true) ->
  for_each l (fun entry =>
    media <- deref (snd entry) ;;
    root <- gets import_path ;;
    let track := serialize media root in
    send_details (fst entry) track) s
  = (with_events s
       (events s ++ List.map (details_event (heap s) (import_path s)) l),
     Ok tt).
Proof.
  set (body := fun entry : str * nat =>
    (media <- deref (snd entry) ;;
     root <- gets import_path ;;
     let track := serialize media root in
     send_details (fst entry) track)%tp).
  revert s. induction l as [|entry t IH]; intros s Hb.
  - simpl. rewrite app_nil_r, with_events_same. reflexivity.
  - rewrite for_each_cons.
    assert (Hstep : body entry s
      = (with_events s
           (events s ++ [details_event (heap s) (import_path s) entry]),
         Ok tt)).
    { unfold body, bind, deref, gets, send_details, send_event, bind_kwargs,
        modify.
      rewrite (Hb entry (or_introl eq_refl)). reflexivity. }
    rewrite Hstep, IH.
    + unfold with_events at 1. cbn [events heap import_path with_events
        connections mediafiles next_ref artwork processing expect_removed
        executor sent os_trace callback_faults map].
      rewrite <- app_assoc. reflexivity.
    + intros e He. apply (Hb e). right. exact He.
Qed.

Lemma report_processing (l : list (str * TrackProcesses))
  (s : TrackProcessor) :
  for_each l (fun entry => send_processing (fst entry) (snd entry)) s
  = (with_events s (events s ++ List.map processing_event l), Ok tt).
Proof.
  set (body := fun entry : str * TrackProcesses =>
    send_processing (fst entry) (snd entry)).
  revert s. induction l as [|entry t IH]; intros s.
  - simpl. rewrite app_nil_r, with_events_same. reflexivity.
  - rewrite for_each_cons.
    assert (Hstep : body entry s
      = (with_events s (events s ++ [processing_event entry]), Ok tt))
      by reflexivity.
    rewrite Hstep, IH.
    unfold with_events at 1. cbn [events heap import_path with_events
      connections mediafiles next_ref artwork processing expect_removed
      executor sent os_trace callback_faults map].
    rewrite <- app_assoc. reflexivity.
Qed.

(** C3, as amended.  Joining registers the session and queues the replay
    on the shared event queue, behind the events already queued: a
    [TRACK_DETAILS] event for every record, then a [TRACK_PROCESSING] event
    for every processing entry.  Nothing is sent to the session by the
    join itself: the send log is unchanged. *)
Theorem open_connection_queues_replay (s : TrackProcessor) (ws : nat) :
  records_bindable s ->
  let joined :=
    if existsb (Nat.eqb ws) (connections s) then s
    else with_connections s (connections s ++ [ws]) in
  open_connection ws s = (with_events joined (events s ++ replay s), Ok tt)
  /\ sent (fst (open_connection ws s)) = sent s
  /\ In ws (connections (fst (open_connection ws s))).
Proof.
  intros Hb joined.
  assert (Hj : events joined = events s /\ heap joined = heap s
               /\ import_path joined = import_path s
               /\ mediafiles joined = mediafiles s
               /\ processing joined = processing s
               /\ sent joined = sent s
               /\ In ws (connections joined)).
  { unfold joined. destruct (existsb (Nat.eqb ws) (connections s)) eqn:E.
    - repeat split. apply existsb_exists in E. destruct E as [x [Hx E]].
      apply Nat.eqb_eq in E. subst x. exact Hx.
    - repeat split. cbn [connections with_connections].
      apply in_or_app. right. left. reflexivity. }
  destruct Hj as [Hev [Hheap [Hroot [Hmf [Hpr [Hsent Hconn]]]]]].
  assert (Hrun : open_connection ws s
                 = (with_events joined (events s ++ replay s), Ok tt)).
  { unfold open_connection, bind at 1, modify at 1. fold joined.
    unfold report_state, bind at 1, gets at 1.
    unfold bind at 1. rewrite report_tracks.
    - unfold bind at 1, gets at 1. cbn [processing with_events].
      rewrite report_processing. cbn [events with_events].
      unfold with_events at 1. cbn [events heap import_path with_events
        connections mediafiles next_ref artwork processing expect_removed
        executor sent os_trace callback_faults].
      unfold replay.
      rewrite <- Hev, <- Hheap, <- Hroot, <- Hmf, <- Hpr, <- app_assoc.
      reflexivity.
    - intros entry He. rewrite Hheap, Hroot. apply Hb.
      rewrite <- Hmf. exact He. }
  split; [exact Hrun|]. rewrite Hrun. cbn [fst sent with_events connections].
  split; [exact Hsent | exact Hconn].
Qed.

End Replay.

Lemma open_connection_queues_replay_witness :
  records_bindable Session.tracked
  /\ sent (fst (open_connection 7 Session.tracked)) = []
  /\ List.map ev_type (events (fst (open_connection 7 Session.tracked)))
     = ["TRACK_DETAILS"; "TRACK_DETAILS"].
Proof.
  assert (Hb : records_bindable Session.tracked).
  { intros entry [<- | []]. vm_compute. reflexivity. }
  destruct (open_connection_queues_replay Session.tracked 7 Hb)
    as [Hrun [Hsent _]].
  split; [exact Hb|]. split; [exact Hsent|].
  rewrite Hrun. vm_compute. reflexivity.
Defined.

(** A session joins a service that tracks one file: the replay is on the
    queue and nothing was sent. *)
Lemma replay_sent_directly_fails :
  ~ replay_sent_directly Session.tracked 7.
Proof.
  intros [Hev _]. vm_compute in Hev. discriminate Hev.
Qed.

(** ** Grouping the batch *)

Lemma string_leb_refl (a : string) : String.leb a a = true.
Proof.
  destruct (String.leb_total a a); assumption.
Qed.

Lemma string_leb_trans (a b c : string) :
  String.leb a b = true -> String.leb b c = true -> String.leb a c = true.
Proof.
  revert b c. induction a as [|x a IH]; intros [|y b] [|z c];
    unfold String.leb; simpl; try congruence.
  unfold Ascii.compare.
  destruct (N.compare_spec (N_of_ascii x) (N_of_ascii y)) as [Exy|Lxy|Gxy];
    try congruence;
    destruct (N.compare_spec (N_of_ascii y) (N_of_ascii z)) as [Eyz|Lyz|Gyz];
    try congruence;
    destruct (N.compare_spec (N_of_ascii x) (N_of_ascii z)) as [Exz|Lxz|Gxz];
    try congruence; try lia.
  apply IH.
Qed.

Lemma insert_by_type_filter (k : string) (e : event) (l : list event) :
  filter (has_type k) (insert_by_type e l) =
  if has_type k e then e :: filter (has_type k) l
  else filter (has_type k) l.
Proof.
  induction l as [|h t IH]; simpl.
  - destruct (has_type k e); reflexivity.
  - destruct (String.leb (ev_type e) (ev_type h)) eqn:E; simpl.
    + destruct (has_type k e); reflexivity.
    + rewrite IH. destruct (has_type k h) eqn:Eh; [|reflexivity].
      destruct (has_type k e) eqn:Ee; [|reflexivity].
      unfold has_type in Eh, Ee. apply String.eqb_eq in Eh, Ee.
      rewrite Eh, <- Ee, string_leb_refl in E. discriminate.
Qed.

(** The sort is stable: the events of one type keep their order. *)
Lemma sort_by_type_filter (k : string) (l : list event) :
  filter (has_type k) (sort_by_type l) = filter (has_type k) l.
Proof.
  induction l as [|e t IH]; simpl; [reflexivity|].
  rewrite insert_by_type_filter, IH. reflexivity.
Qed.

Lemma insert_by_type_In (x e : event) (l : list event) :
  In x (insert_by_type e l) <-> x = e \/ In x l.
Proof.
  induction l as [|h t IH]; simpl.
  - intuition.
  - destruct (String.leb (ev_type e) (ev_type h)); simpl.
    + intuition.
    + rewrite IH. intuition.
Qed.

Lemma sort_by_type_In (x : event) (l : list event) :
  In x (sort_by_type l) <-> In x l.
Proof.
  induction l as [|e t IH]; simpl; [tauto|].
  rewrite insert_by_type_In, IH. intuition.
Qed.

Lemma insert_by_type_sorted (e : event) (l : list event) :
  StronglySorted type_le l -> StronglySorted type_le (insert_by_type e l).
Proof.
  induction 1 as [|h t Ht IH Hall]; simpl.
  - repeat constructor.
  - destruct (String.leb (ev_type e) (ev_type h)) eqn:E.
    + constructor; [constructor; assumption|].
      constructor; [exact E|].
      rewrite Forall_forall in *. intros x Hx.
      eapply string_leb_trans; [exact E | apply Hall, Hx].
    + constructor; [exact IH|].
      rewrite Forall_forall in *. intros x Hx.
      apply insert_by_type_In in Hx. destruct Hx as [-> | Hx].
      * destruct (String.leb_total (ev_type e) (ev_type h)) as [C|C];
          [congruence | exact C].
      * apply Hall, Hx.
Qed.

Lemma sort_by_type_sorted (l : list event) :
  StronglySorted type_le (sort_by_type l).
Proof.
  induction l as [|e t IH]; simpl.
  - constructor.
  - apply insert_by_type_sorted, IH.
Qed.

(** The first group of [groupby] has the type of the first event. *)
Lemma groupby_head (e : event) (t : list event) :
  exists es gs, groupby (e :: t) = (ev_type e, e :: es) :: gs.
Proof.
  simpl. destruct (groupby t) as [|[k es] gs].
  - exists [], []. reflexivity.
  - destruct (String.eqb (ev_type e) k) eqn:E.
    + apply String.eqb_eq in E. subst k. exists es, gs. reflexivity.
    + exists [], ((k, es) :: gs). reflexivity.
Qed.

Lemma filter_none {A} (p : A -> bool) (l : list A) :
  (forall x, In x l -> p x = false) -> filter p l = [].
Proof.
  induction l as [|x t IH]; simpl; [reflexivity|].
  intros Hall. rewrite (Hall x) by (left; reflexivity).
  apply IH. intros y Hy. apply Hall. right. exact Hy.
Qed.

(** In a sorted list whose second event has another type than the first,
    no later event has the type of the first. *)
Lemma sorted_type_gap (e h : event) (t : list event) :
  StronglySorted type_le (e :: h :: t) ->
  ev_type e <> ev_type h ->
  filter (has_type (ev_type e)) (h :: t) = [].
Proof.
  intros Hs Hne.
  inversion Hs as [|? ? Hs' He]; subst.
  inversion Hs' as [|? ? _ Hh]; subst.
  inversion He as [|? ? Heh _]; subst.
  rewrite Forall_forall in Hh.
  assert (Hall : forall x, In x (h :: t) -> has_type (ev_type e) x = false).
  { intros x Hx. unfold has_type.
    destruct (String.eqb (ev_type x) (ev_type e)) eqn:E; [|reflexivity].
    apply String.eqb_eq in E. exfalso. apply Hne.
    destruct Hx as [<- | Hx]; [congruence|].
    apply String.leb_antisym; [exact Heh|].
    rewrite <- E. apply Hh, Hx. }
  apply filter_none. exact Hall.
Qed.

(** On a sorted list [groupby] makes one group per type, and the group of
    a type holds the events of that type, in their order. *)
Lemma groupby_sorted (l : list event) :
  StronglySorted type_le l ->
  NoDup (List.map fst (groupby l))
  /\ (forall k es, In (k, es) (groupby l) ->
        es = filter (has_type k) l /\ es <> []).
Proof.
  induction l as [|e t IH]; intros Hs.
  - simpl. split; [constructor | tauto].
  - assert (Ht : StronglySorted type_le t) by (inversion Hs; assumption).
    destruct (IH Ht) as [Hnd Hgr]. clear IH.
    assert (Hee : has_type (ev_type e) e = true)
      by (apply String.eqb_refl).
    destruct t as [|h t'].
    + simpl. split; [repeat constructor; simpl; tauto|].
      intros k es [E | []]. injection E as <- <-.
      rewrite Hee. split; [reflexivity | discriminate].
    + destruct (groupby_head h t') as [hs [gs Hg]].
      simpl groupby in Hg |- *. simpl groupby in Hnd, Hgr.
      rewrite Hg in Hnd, Hgr |- *.
      destruct (String.eqb (ev_type e) (ev_type h)) eqn:E.
      * apply String.eqb_eq in E.
        split; [exact Hnd|].
        intros k es [Hk | Hk].
        -- injection Hk as <- <-.
           destruct (Hgr (ev_type h) (h :: hs) (or_introl eq_refl))
             as [Hes _].
           split; [|discriminate].
           cbn [filter]. unfold has_type at 1.
           rewrite E, String.eqb_refl. f_equal.
           exact Hes.
        -- destruct (Hgr k es (or_intror Hk)) as [Hes Hne].
           split; [|exact Hne].
           cbn [filter]. unfold has_type at 1.
           destruct (String.eqb (ev_type e) k) eqn:Ek; [|exact Hes].
           apply String.eqb_eq in Ek. exfalso.
           simpl in Hnd. inversion Hnd as [|? ? Hnin _]; subst.
           apply Hnin. rewrite <- E.
           apply (in_map fst) in Hk. exact Hk.
      * apply String.eqb_neq in E.
        pose proof (sorted_type_gap e h t' Hs E) as Hgap.
        assert (Hkeys : forall k es, In (k, es) ((ev_type h, h :: hs) :: gs)
                          -> k <> ev_type e).
        { intros k es Hk Ek. subst k.
          destruct (Hgr _ _ Hk) as [Hes Hne]. rewrite Hgap in Hes.
          contradiction. }
        split.
        -- simpl. constructor; [|exact Hnd].
           intros [Hin | Hin]; [congruence|].
           apply in_map_iff in Hin.
           destruct Hin as [[k es] [Ek Hk]]. simpl in Ek. subst k.
           exact (Hkeys _ _ (or_intror Hk) eq_refl).
        -- intros k es [Hk | Hk].
           ++ injection Hk as <- <-. split; [|discriminate].
              change (filter (has_type (ev_type e)) (e :: h :: t'))
                with (if has_type (ev_type e) e
                      then e :: filter (has_type (ev_type e)) (h :: t')
                      else filter (has_type (ev_type e)) (h :: t')).
              rewrite Hee, Hgap. reflexivity.
           ++ destruct (Hgr k es Hk) as [Hes Hne]. split; [|exact Hne].
              change (filter (has_type k) (e :: h :: t'))
                with (if has_type k e
                      then e :: filter (has_type k) (h :: t')
                      else filter (has_type k) (h :: t')).
              destruct (has_type k e) eqn:Ek; [|exact Hes].
              apply String.eqb_eq in Ek. exfalso.
              exact (Hkeys _ _ Hk (eq_sym Ek)).
Qed.

Lemma groupby_covers (l : list event) (e : event) :
  In e l -> exists es, In (ev_type e, es) (groupby l) /\ In e es.
Proof.
  induction l as [|h t IH]; [intros []|].
  intros Hin. simpl.
  destruct Hin as [-> | Hin].
  - destruct (groupby t) as [|[k es] gs].
    + exists [e]. simpl. auto.
    + destruct (String.eqb (ev_type e) k) eqn:E.
      * apply String.eqb_eq in E. subst k. exists (e :: es). simpl. auto.
      * exists [e]. simpl. auto.
  - destruct (IH Hin) as [es [Hg He]].
    destruct (groupby t) as [|[k es0] gs]; [contradiction|].
    destruct (String.eqb (ev_type h) k) eqn:E.
    + destruct Hg as [Hg | Hg].
      * injection Hg as <- <-. exists (h :: es0). simpl. auto.
      * exists es. simpl. auto.
    + exists es. simpl. auto.
Qed.

(** What [group_events] yields: one group per event type of the batch, no
    type twice, and the items of a group are the items of the events of
    its type, in the order of the batch. *)
Lemma group_events_spec (batch : list event) :
  NoDup (List.map g_type (group_events batch))
  /\ (forall g, In g (group_events batch) ->
        g_items g
        = List.map ev_item (filter (has_type (g_type g)) batch)
        /\ g_items g <> [])
  /\ (forall e, In e batch ->
        In (ev_type e) (List.map g_type (group_events batch))).
Proof.
  destruct (groupby_sorted _ (sort_by_type_sorted batch)) as [Hnd Hgr].
  unfold group_events. split; [|split].
  - rewrite map_map. simpl. exact Hnd.
  - intros g Hg. apply in_map_iff in Hg.
    destruct Hg as [[k es] [<- Hk]]. simpl.
    destruct (Hgr k es Hk) as [Hes Hne].
    rewrite <- sort_by_type_filter, <- Hes. split; [reflexivity|].
    destruct es; [contradiction | discriminate].
  - intros e He. rewrite map_map. simpl.
    apply sort_by_type_In in He.
    destruct (groupby_covers _ _ He) as [es [Hg _]].
    apply (in_map fst) in Hg. exact Hg.
Qed.

(** ** The dispatcher *)

Section Dispatch.
Context `{External}.

Lemma with_sent_same (s : TrackProcessor) : with_sent s (sent s) = s.
Proof. destruct s; reflexivity. Qed.

Lemma send_to_all (conns : list nat) (data : str) (s : TrackProcessor) :
  for_each conns (fun ws =>
    modify (fun s => with_sent s (sent s ++ [(ws, data)]))) s
  = (with_sent s (sent s ++ List.map (fun ws => (ws, data)) conns), Ok tt).
Proof.
  revert s. induction conns as [|ws t IH]; intros s.
  - simpl. rewrite app_nil_r, with_sent_same. reflexivity.
  - rewrite for_each_cons. unfold modify at 1. rewrite IH.
    unfold with_sent at 1. cbn [events heap import_path with_sent
      connections mediafiles next_ref artwork processing expect_removed
      executor sent os_trace callback_faults map].
    rewrite <- app_assoc. reflexivity.
Qed.

Lemma send_groups (conns : list nat) (groups : list group)
  (s : TrackProcessor) :
  for_each groups (fun event =>
    let data := json_dumps event in
    for_each conns (fun ws =>
      modify (fun s => with_sent s (sent s ++ [(ws, data)])))) s
  = (with_sent s
       (sent s ++
        flat_map (fun g => List.map (fun ws => (ws, json_dumps g)) conns)
                 groups),
     Ok tt).
Proof.
  revert s. induction groups as [|g t IH]; intros s.
  - simpl. rewrite app_nil_r, with_sent_same. reflexivity.
  - rewrite for_each_cons. cbv zeta. rewrite send_to_all, IH.
    unfold with_sent at 1. cbn [events heap import_path with_sent
      connections mediafiles next_ref artwork processing expect_removed
      executor sent os_trace callback_faults flat_map].
    rewrite <- app_assoc. reflexivity.
Qed.

(** C5. One turn of the dispatcher returns.  With an empty queue the state
    is unchanged: nothing is drained, nothing sent.  With a non-empty
    queue every queued event is drained; without connections nothing else
    changes (the batch is dropped, not sent, not queued again); with
    connections the sends are those of [flush]: the batch is grouped by
    event type (one group per type, holding the items of the events of that
    type in their order), each group is serialized and sent to every
    connection. *)
Theorem dispatcher_iteration_spec (s : TrackProcessor) :
  snd (dispatcher_iteration s) = Ok tt
  /\ (events s = [] -> fst (dispatcher_iteration s) = s)
  /\ (events s <> [] -> connections s = [] ->
      fst (dispatcher_iteration s) = with_events s [])
  /\ (events s <> [] -> connections s <> [] ->
      fst (dispatcher_iteration s)
      = with_sent (with_events s [])
          (sent s ++ flush (connections s) (events s)))
  /\ NoDup (List.map g_type (group_events (events s)))
  /\ (forall g, In g (group_events (events s)) ->
        g_items g
        = List.map ev_item (filter (has_type (g_type g)) (events s))
        /\ g_items g <> [])
  /\ (forall e, In e (events s) ->
        In (ev_type e) (List.map g_type (group_events (events s)))).
Proof.
  assert (Hrun : dispatcher_iteration s =
    match events s with
    | [] => (s, Ok tt)
    | _ :: _ =>
        match connections s with
        | [] => (with_events s [], Ok tt)
        | _ :: _ =>
            (with_sent (with_events s [])
               (sent s ++ flush (connections s) (events s)), Ok tt)
        end
    end).
  { unfold dispatcher_iteration, bind at 1, gets at 1.
    destruct (events s) as [|e batch] eqn:Eev; [reflexivity|].
    unfold bind at 1, modify at 1. unfold bind at 1, gets at 1.
    cbn [connections with_events].
    destruct (connections s) as [|ws conns] eqn:Ec; [reflexivity|].
    rewrite send_groups. reflexivity. }
  rewrite Hrun.
  split; [|split; [|split; [|split]]].
  - destruct (events s); [reflexivity|]. destruct (connections s); reflexivity.
  - intros ->. reflexivity.
  - intros Hev Hc. rewrite Hc. destruct (events s); [contradiction|].
    reflexivity.
  - intros Hev Hc. destruct (events s); [contradiction|].
    destruct (connections s); [contradiction|]. reflexivity.
  - apply group_events_spec.
Qed.

End Dispatch.

Lemma dispatcher_iteration_spec_witness :
  let s :=
    with_connections (fst (open_connection 7 Session.tracked)) [7; 9]%nat in
  events s <> [] /\ connections s <> []
  /\ events (fst (dispatcher_iteration s)) = []
  /\ List.map fst (sent (fst (dispatcher_iteration s))) = [7; 9]%nat.
Proof.
  intros s.
  assert (Hev : events s <> []) by (vm_compute; discriminate).
  assert (Hc : connections s <> []) by discriminate.
  destruct (dispatcher_iteration_spec s) as [_ [_ [_ [Hsend _]]]].
  specialize (Hsend Hev Hc).
  split; [exact Hev|]. split; [exact Hc|].
  rewrite Hsend. split; [reflexivity|]. vm_compute. reflexivity.
Defined.

(** ** Edits of a save *)

(** A computation that relates every state to the state it leaves. *)
Section Keeps.
Context (R : TrackProcessor -> TrackProcessor -> Prop).
Hypothesis R_refl : forall s, R s s.
Hypothesis R_trans : forall s1 s2 s3, R s1 s2 -> R s2 s3 -> R s1 s3.

Lemma keeps_ret {A} (a : A) : keeps R (ret a).
Proof. intros s. apply R_refl. Qed.

Lemma keeps_raise {A} (e : exn) : keeps R (@raise A e).
Proof. intros s. apply R_refl. Qed.

Lemma keeps_lift {A} (r : res A) : keeps R (lift r).
Proof. intros s. apply R_refl. Qed.

Lemma keeps_gets {A} (f : TrackProcessor -> A) : keeps R (gets f).
Proof. intros s. apply R_refl. Qed.

Lemma keeps_modify (f : TrackProcessor -> TrackProcessor) :
  (forall s, R s (f s)) -> keeps R (modify f).
Proof. intros Hf s. apply Hf. Qed.

Lemma keeps_bind {A B} (c : M A) (k : A -> M B) :
  keeps R c -> (forall a, keeps R (k a)) -> keeps R (bind c k).
Proof.
  intros Hc Hk s. unfold bind. specialize (Hc s).
  destruct (c s) as [s1 [a|e]]; simpl in *; [|exact Hc].
  eapply R_trans; [exact Hc | apply Hk].
Qed.

Lemma keeps_for_each {A} (l : list A) (body : A -> M unit) :
  (forall x, keeps R (body x)) -> keeps R (for_each l body).
Proof.
  intros Hb. induction l as [|x t IH]; simpl.
  - apply keeps_ret.
  - apply keeps_bind; [apply Hb | intros _; exact IH].
Qed.

End Keeps.

Lemma same_heap_refl (s : TrackProcessor) : same_heap s s.
Proof. reflexivity. Qed.

Lemma same_heap_trans (s1 s2 s3 : TrackProcessor) :
  same_heap s1 s2 -> same_heap s2 s3 -> same_heap s1 s3.
Proof. unfold same_heap. congruence. Qed.

Ltac keeps_heap :=
  repeat first
    [ apply (keeps_lift same_heap same_heap_refl)
    | apply (keeps_gets same_heap same_heap_refl)
    | apply (keeps_ret same_heap same_heap_refl)
    | apply (keeps_raise same_heap same_heap_refl)
    | apply (keeps_modify same_heap); intros; reflexivity
    | apply (keeps_bind same_heap same_heap_trans)
    | apply (keeps_for_each same_heap same_heap_refl same_heap_trans)
    | intros ].






Section SaveEdits.
Context `{External}.




End SaveEdits.



(** * Further properties of the code *)

(** ** Events *)

Lemma dict_get_update (k : string) (d other : dict) :
  dict_get k (dict_update d other) =
  match dict_get k (rev other) with
  | Some v => Some v
  | None => dict_get k d
  end.
Proof. apply (assoc_get_update String.eqb String.eqb_eq). Qed.

(** [send_event] with fields that can be passed as keywords returns and
    queues exactly one event, of the type asked for, behind the events
    already queued.  Its item has the fields given; its [id] is the
    identifier passed, unless a field is itself named [id]: that field
    then replaces the identifier. *)
Theorem send_event_item
  (s : TrackProcessor) (t : EventType) (identifier : str) (kwargs : dict) :
  bindable ["self"; "event_type"; "identifier"] kwargs = true ->
  exists item,
    send_event t identifier kwargs s
    = (with_events s (events s ++ [mk_event (EventType_name t) item]), Ok tt)
    /\ (forall k v, dict_get k (rev kwargs) = Some v ->
                    dict_get k item = Some v)
    /\ (dict_get "id" (rev kwargs) = None ->
        dict_get "id" item = Some (VStr identifier)).
Proof.
  intros Hb. exists (dict_update [("id", VStr identifier)] kwargs).
  split; [|split].
  - unfold send_event, bind, bind_kwargs, modify. rewrite Hb. reflexivity.
  - intros k v Hk. rewrite dict_get_update, Hk. reflexivity.
  - intros Hk. rewrite dict_get_update, Hk. reflexivity.
Qed.

Lemma send_event_item_witness :
  exists item,
    send_event TRACK_DETAILS (u "19ac") [("id", VStr (u "other"))]
      (init (u "/import"))
    = (with_events (init (u "/import"))
         [mk_event "TRACK_DETAILS" item], Ok tt)
    /\ dict_get "id" item = Some (VStr (u "other")).
Proof.
  destruct (send_event_item (init (u "/import")) TRACK_DETAILS (u "19ac")
              [("id", VStr (u "other"))] eq_refl)
    as [item [Hrun [Hfields _]]].
  exists item. split; [exact Hrun|]. apply Hfields. reflexivity.
Defined.

(** A field named like a parameter of [send_event] cannot be passed: the
    call raises [TypeError] and queues nothing. *)
Theorem send_event_rejects_parameter_names
  (s : TrackProcessor) (t : EventType) (identifier : str) (kwargs : dict)
  (k : string) (v : value) :
  In (k, v) kwargs -> In k ["self"; "event_type"; "identifier"] ->
  send_event t identifier kwargs s = (s, Raise TypeError).
Proof.
  intros Hin Hk. unfold send_event, bind, bind_kwargs.
  assert (Hb : bindable ["self"; "event_type"; "identifier"] kwargs = false).
  { destruct (bindable _ kwargs) eqn:E; [|reflexivity].
    unfold bindable in E. rewrite forallb_forall in E.
    specialize (E (k, v) Hin). apply negb_true_iff in E.
    apply (mem_In String.eqb String.eqb_eq) in Hk. cbn [fst] in E.
    congruence. }
  rewrite Hb. reflexivity.
Qed.

Lemma send_event_rejects_parameter_names_witness :
  send_event TRACK_UPDATE (u "19ac") [("event_type", VNone)]
    (init (u "/import"))
  = (init (u "/import"), Raise TypeError).
Proof.
  apply (send_event_rejects_parameter_names _ _ _ _ "event_type" VNone);
    simpl; auto.
Defined.

(** ** The processing list *)

Lemma list_remove_absent {K} (eqb : K -> K -> bool)
  (eqb_eq : forall a b, eqb a b = true <-> a = b) (x : K) (l : list K) :
  ~ In x l -> list_remove eqb x l = Raise ValueError.
Proof.
  induction l as [|y t IH]; simpl; [reflexivity|].
  intros Hn. destruct (eqb y x) eqn:E.
  - apply eqb_eq in E. tauto.
  - rewrite IH by tauto. reflexivity.
Qed.

Lemma list_remove_last {K} (eqb : K -> K -> bool)
  (eqb_eq : forall a b, eqb a b = true <-> a = b) (x : K) (l : list K) :
  ~ In x l -> list_remove eqb x (l ++ [x]) = Ok l.
Proof.
  induction l as [|y t IH]; simpl; intros Hn.
  - rewrite (proj2 (eqb_eq x x) eq_refl). reflexivity.
  - destruct (eqb y x) eqn:E.
    + apply eqb_eq in E. tauto.
    + rewrite IH by tauto. reflexivity.
Qed.

(** Completing a stage that is not in the processing list raises
    [ValueError]; the list and the queue are as before. *)
Theorem done_processing_not_in_progress
  (s : TrackProcessor) (identifier : str) (stage : TrackProcesses)
  (kwargs : dict) :
  ~ In (identifier, stage) (processing s) ->
  bindable ["self"; "identifier"; "completed_process"] kwargs = true ->
  done_processing identifier stage kwargs s = (s, Raise ValueError).
Proof.
  intros Hn Hb. unfold done_processing, bind, bind_kwargs, gets, lift.
  rewrite Hb. cbn [ret].
  rewrite (list_remove_absent entry_eqb entry_eqb_eq _ _ Hn). reflexivity.
Qed.

Lemma done_processing_not_in_progress_witness :
  let s := fst (add_processing (u "19ac") CONVERTING (init (u "/import"))) in
  done_processing (u "19ac") KEY_COMPUTING [] s = (s, Raise ValueError).
Proof.
  intros s. apply done_processing_not_in_progress; [|reflexivity].
  intros [E | []]. discriminate E.
Defined.

(** [add_processing] returns, puts the entry at the end of the list and
    queues one [TRACK_PROCESSING] event naming the stage; completing the
    stage right after gives back the list [add_processing] started from,
    when the entry was not in it already. *)
Theorem add_then_done_processing
  (s : TrackProcessor) (identifier : str) (stage : TrackProcesses) :
  ~ In (identifier, stage) (processing s) ->
  let s1 := fst (add_processing identifier stage s) in
  let s2 := fst (done_processing identifier stage [] s1) in
  snd (add_processing identifier stage s) = Ok tt
  /\ processing s1 = processing s ++ [(identifier, stage)]
  /\ snd (done_processing identifier stage [] s1) = Ok tt
  /\ processing s2 = processing s
  /\ events s2
     = events s ++
       [mk_event "TRACK_PROCESSING"
          [("id", VStr identifier);
           ("process", VStr (u (TrackProcesses_name stage)))];
        mk_event "TRACK_UPDATE"
          [("id", VStr identifier);
           ("completed_process", VStr (u (TrackProcesses_name stage)))]].
Proof.
  intros Hn s1 s2.
  assert (Hadd : add_processing identifier stage s
    = (with_events
         (with_processing s (processing s ++ [(identifier, stage)]))
         (events s ++
          [mk_event "TRACK_PROCESSING"
             [("id", VStr identifier);
              ("process", VStr (u (TrackProcesses_name stage)))]]),
       Ok tt)) by reflexivity.
  assert (Hdone : done_processing identifier stage [] s1
    = (with_events (with_processing s1 (processing s))
         (events s1 ++
          [mk_event "TRACK_UPDATE"
             [("id", VStr identifier);
              ("completed_process",
               VStr (u (TrackProcesses_name stage)))]]), Ok tt)).
  { unfold done_processing, bind, bind_kwargs, gets, lift, modify.
    cbn [bindable forallb ret]. unfold s1 at 1. rewrite Hadd.
    cbn [fst processing with_events with_processing].
    rewrite (list_remove_last entry_eqb entry_eqb_eq _ _ Hn). reflexivity. }
  unfold s2. rewrite Hdone. unfold s1. rewrite Hadd.
  cbn [fst snd processing events with_events with_processing].
  repeat split. rewrite <- app_assoc. reflexivity.
Qed.

Lemma add_then_done_processing_witness :
  let s := init (u "/import") in
  processing (fst (done_processing (u "19ac") CONVERTING []
                     (fst (add_processing (u "19ac") CONVERTING s))))
  = processing s.
Proof.
  intros s.
  destruct (add_then_done_processing s (u "19ac") CONVERTING)
    as [_ [_ [_ [Hp _]]]]; [intros []|exact Hp].
Defined.

(** ** The artwork cache *)

Lemma assoc_get_del_other {K V} (eqb : K -> K -> bool)
  (eqb_eq : forall a b, eqb a b = true <-> a = b)
  (k k' : K) (d : list (K * V)) :
  k <> k' -> assoc_get eqb k (assoc_del eqb k' d) = assoc_get eqb k d.
Proof.
  intros Hne. induction d as [|[k0 v0] t IH]; simpl; [reflexivity|].
  destruct (eqb k0 k') eqn:E; simpl.
  - apply eqb_eq in E. subst k0.
    destruct (eqb k' k) eqn:E'; [|exact IH].
    apply eqb_eq in E'. congruence.
  - rewrite IH. reflexivity.
Qed.

Lemma assoc_get_In {K V} (eqb : K -> K -> bool)
  (eqb_eq : forall a b, eqb a b = true <-> a = b)
  (k : K) (v : V) (d : list (K * V)) :
  assoc_get eqb k d = Some v -> In (k, v) d.
Proof.
  induction d as [|[k0 v0] t IH]; simpl; [discriminate|].
  destruct (eqb k0 k) eqn:E.
  - apply eqb_eq in E. subst k0. intros H. injection H as ->. auto.
  - auto.
Qed.

Lemma evicted_lookup (keys : list str) (cache : list (str * Image.t))
  (k : str) :
  assoc_get str_eqb k (fold_left (fun a k => assoc_del str_eqb k a) keys cache)
  = if str_mem k keys then None else assoc_get str_eqb k cache.
Proof.
  revert cache. induction keys as [|k0 t IH]; intros cache; simpl.
  - reflexivity.
  - rewrite IH. unfold str_mem, mem. simpl.
    destruct (str_eqb k k0) eqn:E; simpl.
    + apply str_eqb_eq in E. subst k0.
      rewrite (assoc_get_del_same str_eqb).
      destruct (existsb (str_eqb k) t); reflexivity.
    + apply str_eqb_neq in E.
      rewrite (assoc_get_del_other str_eqb str_eqb_eq k k0 cache E).
      reflexivity.
Qed.

(** After [cache_art], a key of one of the artworks given maps to the last
    artwork given with that key; every other key maps to what it mapped to
    before.  So every artwork given is found under its key. *)
Theorem cache_art_lookup (s : TrackProcessor) (arts : list Image.t) (k : str) :
  let given := List.map (fun a => (Image.key a, a)) arts in
  assoc_get str_eqb k (artwork (fst (cache_art arts s)))
  = match assoc_get str_eqb k (rev given) with
    | Some a => Some a
    | None => assoc_get str_eqb k (artwork s)
    end
  /\ (forall a, In a arts ->
        exists a', assoc_get str_eqb (Image.key a)
                     (artwork (fst (cache_art arts s))) = Some a'
                   /\ Image.key a' = Image.key a).
Proof.
  intros given.
  assert (Hget : forall k0,
    assoc_get str_eqb k0 (artwork (fst (cache_art arts s)))
    = match assoc_get str_eqb k0 (rev given) with
      | Some a => Some a
      | None => assoc_get str_eqb k0 (artwork s)
      end).
  { intros k0. unfold cache_art, modify. cbn [fst artwork with_artwork].
    rewrite (assoc_get_update str_eqb str_eqb_eq).
    rewrite (assoc_get_rev str_eqb str_eqb_eq)
      by (apply (assoc_update_nodup str_eqb str_eqb_eq); constructor).
    rewrite (assoc_get_update str_eqb str_eqb_eq). fold given.
    destruct (assoc_get str_eqb k0 (rev given)); reflexivity. }
  split; [apply Hget|].
  intros a Ha. rewrite Hget.
  assert (Hk : In (Image.key a) (List.map fst (rev given))).
  { rewrite map_rev. apply -> in_rev. unfold given. rewrite map_map.
    simpl. apply in_map. exact Ha. }
  apply (assoc_key_get str_eqb str_eqb_eq) in Hk.
  destruct (assoc_get str_eqb (Image.key a) (rev given)) as [a'|] eqn:E;
    [|contradiction].
  exists a'. split; [reflexivity|].
  apply (assoc_get_In str_eqb str_eqb_eq) in E.
  apply in_rev in E. unfold given in E. apply in_map_iff in E.
  destruct E as [a0 [E _]]. injection E as E <-. exact E.
Qed.

(** ** Removal and the cache *)

(** Removing a tracked file evicts every artwork of its record from the
    cache, whether or not another record still refers to it; an artwork
    under another key stays. *)
Theorem remove_evicts_artwork_of_record
  (s : TrackProcessor) (path identifier : str) (media : nat) (k : str) :
  file_id path = Ok identifier ->
  assoc_get str_eqb identifier (mediafiles s) = Some media ->
  assoc_get str_eqb k (artwork (fst (remove path s)))
  = if str_mem k (List.map Image.key (MediaFile.artwork (heap s media)))
    then None
    else assoc_get str_eqb k (artwork s).
Proof.
  intros Hid Hreg. rewrite (remove_tracked_eq s path identifier media Hid Hreg).
  cbv zeta.
  destruct (str_mem identifier (expect_removed s)).
  - destruct (list_remove str_eqb identifier (expect_removed s));
      cbn [fst artwork with_expect_removed with_mediafiles with_artwork];
      apply evicted_lookup.
  - cbn [fst artwork with_events with_mediafiles with_artwork].
    apply evicted_lookup.
Qed.

Lemma remove_evicts_artwork_of_record_witness :
  let shared :=
    with_mediafiles Session.tracked
      [(Session.id1, O); (u "another", O)] in
  assoc_get str_eqb (u "c0ffee") (artwork shared) = Some Studio.cover
  /\ assoc_get str_eqb (u "another")
       (mediafiles (fst (remove Session.track1 shared))) = Some O
  /\ assoc_get str_eqb (u "c0ffee")
       (artwork (fst (remove Session.track1 shared))) = None.
Proof.
  intros shared.
  split; [vm_compute; reflexivity|]. split; [vm_compute; reflexivity|].
  rewrite (remove_evicts_artwork_of_record shared Session.track1
             Session.id1 O (u "c0ffee"));
    vm_compute; reflexivity.
Defined.

(** ** Saving an unknown track *)

(** A save without an [id] raises [KeyError]; a save whose [id] is not a
    key of the registry fails the assertion.  Neither changes the state. *)
Theorem save_track_unknown_identifier
  `{External} (s : TrackProcessor) (track : dict) (options : Options)
  (identifier : str) :
  (dict_get "id" track = None ->
   save_track track options s = (s, Raise KeyError))
  /\ (dict_get "id" track = Some (VStr identifier) ->
      assoc_get str_eqb identifier (mediafiles s) = None ->
      save_track track options s = (s, Raise AssertionError)).
Proof.
  split.
  - intros Hid. unfold save_track, bind, lift, subscript. rewrite Hid.
    reflexivity.
  - intros Hid Hreg. unfold save_track, bind, lift, subscript, gets.
    rewrite Hid. cbn [as_key]. rewrite Hreg. reflexivity.
Qed.

Lemma save_track_unknown_identifier_witness :
  save_track [("title", VStr (u "x"))] (mk_options None []) Session.tracked
  = (Session.tracked, Raise KeyError)
  /\ save_track [("id", VStr (u "nobody")); ("artwork", VNone)]
       (mk_options None []) Session.tracked
     = (Session.tracked, Raise AssertionError).
Proof.
  destruct (save_track_unknown_identifier Session.tracked
              [("title", VStr (u "x"))] (mk_options None []) [])
    as [H1 _].
  destruct (save_track_unknown_identifier Session.tracked
              [("id", VStr (u "nobody")); ("artwork", VNone)]
              (mk_options None []) (u "nobody"))
    as [_ H2].
  split; [apply H1; reflexivity | apply H2; vm_compute; reflexivity].
Defined.
